(** * ParallelChordGenerator: a shallow embedding and its properties

    The development follows src/ParallelChordGenerator.py: the template
    catalog built by [__init__], the chord naming of [_get_chord_name], the
    unit of work [_save_single], and the submission loop of [generate_all],
    the latter as a labelled transition system whose labels are the moves
    of the coordinating thread and of the pool's worker threads. *)

From Stdlib Require Import Ascii String.
From stdpp Require Import base tactics option list list_numbers numbers
  sorting strings pretty gmap.

Open Scope string_scope.
Open Scope list_scope.
Open Scope Z_scope.

(** ** Python values and exceptions *)

(** The exceptions the modelled code can meet. *)
Inductive exn :=
  | ValueError
  | OSError
  | LibraryError.

(** A computation that either raises or returns. *)
Definition result (A : Type) : Type := exn + A.

Definition raise {A} (e : exn) : result A := inl e.
Definition ret {A} (a : A) : result A := inr a.

Global Instance result_bind : MBind result := λ A B k m,
  match m with
  | inl e => inl e
  | inr a => k a
  end.

(** A list comprehension [[f x for x in l]] whose body may raise: the first
    exception, in list order, ends the comprehension. *)
Fixpoint comprehension {A B} (f : A → result B) (l : list A) : result (list B) :=
  match l with
  | [] => ret []
  | x :: l' => y ← f x; ys ← comprehension f l'; ret (y :: ys)
  end.

(** ** Builtins used by the source *)

(** [range(a, b)] over the integers. *)
Definition range (a b : Z) : list Z := seqZ a (b - a).

(** [min(notes)]: raises [ValueError] on an empty sequence. *)
Definition py_min (notes : list Z) : result Z :=
  match notes with
  | [] => raise ValueError
  | n :: ns => ret (foldl Z.min n ns)
  end.

(** [sorted(l)] on integers. *)
Definition sorted (l : list Z) : list Z := merge_sort Z.le l.

(** [s.replace(a, b)] for one-character [a] and [b]. *)
Fixpoint replace (a b : ascii) (s : string) : string :=
  match s with
  | EmptyString => EmptyString
  | String c s' => String (if decide (c = a) then b else c) (replace a b s')
  end.

(** [sep.join(l)]. *)
Fixpoint join (sep : string) (l : list string) : string :=
  match l with
  | [] => ""
  | [s] => s
  | s :: l' => s +:+ sep +:+ join sep l'
  end.

(** [str.startswith] and [str.endswith] for a one-character argument. *)
Definition startswith (s : string) (c : ascii) : bool :=
  match s with
  | String c' _ => bool_decide (c' = c)
  | EmptyString => false
  end.

Fixpoint endswith (s : string) (c : ascii) : bool :=
  match s with
  | EmptyString => false
  | String c' EmptyString => bool_decide (c' = c)
  | String _ s' => endswith s' c
  end.

(** [os.path.join(a, b)] (POSIX flavour, two components). *)
Definition os_path_join (a b : string) : string :=
  if startswith b "/" then b
  else if bool_decide (a = "") || endswith a "/" then a +:+ b
  else a +:+ "/" +:+ b.

(** [itertools.product(pool, repeat=n)], in its order of production: the
    first position varies slowest. *)
Fixpoint product {A} (pool : list A) (n : nat) : list (list A) :=
  match n with
  | O => [[]]
  | S n' => x ← pool; (x ::.) <$> product pool n'
  end.

(** ** The generator object *)

Definition chord : Type := list Z.
Definition progression : Type := list chord.

Record ParallelChordGenerator := {
  major : list Z;
  minor : list Z;
  C4 : Z;
  B4 : Z;
  templates : list chord;
}.

(** The expression that [__init__] assigns to [self.templates], as a
    function of the two shapes and the two ends of the root range. *)
Definition build_catalog (major minor : list Z) (low high : Z) : list chord :=
  ((λ i, (λ n, n + i) <$> major) <$> range low (high + 1)) ++
  ((λ i, (λ n, n + i) <$> minor) <$> range low (high + 1)).

Definition __init__ : ParallelChordGenerator :=
  let major := [0; 4; 7] in
  let minor := [0; 3; 7] in
  let C4 := 48 in
  let B4 := 59 in
  {| major := major; minor := minor; C4 := C4; B4 := B4;
     templates := build_catalog major minor C4 B4 |}.

(** The sorted intervals above the lowest note, as [_get_chord_name]
    computes them. *)
Definition intervals_from (root : Z) (notes : list Z) : list Z :=
  sorted ((λ n, n - root) <$> notes).

(** [list.remove(x)]: drops the first occurrence, raises [ValueError] when
    there is none. *)
Fixpoint list_remove (x : nat) (l : list nat) : result (list nat) :=
  match l with
  | [] => raise ValueError
  | y :: l' =>
      if decide (y = x) then ret l'
      else l'' ← list_remove x l'; ret (y :: l'')
  end.

(** ** External collaborators

    The notation library, the pitch naming utility and the file system are
    not part of the repository; the development is parametric in them. *)

(** The MIDI files on disk: path to the progression serialised there. *)
Abbreviation disk := (gmap string progression).

Class Collaborators := {
  (** [pitch.Pitch(n).name] *)
  pitch_name : Z → result string;
  (** building the stream of chords and [s.write('midi', fp=path)]: whether
      it raises, given what is on disk *)
  midi_write : progression → string → disk → result unit;
  (** [os.makedirs(path, exist_ok=True)] *)
  makedirs : string → result unit;
}.

(** Modelled from the spec: the pitch naming utility ("given a MIDI note
    number, returns a canonical note name") is music21's, which is not under
    src/; this is its default spelling of the twelve pitch classes, flats
    written with the library's marker [-]. *)
Definition music21_name (n : Z) : result string :=
  ret (match n `mod` 12 with
       | 0 => "C" | 1 => "C#" | 2 => "D" | 3 => "E-" | 4 => "E" | 5 => "F"
       | 6 => "F#" | 7 => "G" | 8 => "G#" | 9 => "A" | 10 => "B-" | _ => "B"
       end).

(** Collaborators that never fail, and collaborators whose every write
    fails: the two extremes used to exercise the model. *)
Definition reliable : Collaborators :=
  {| pitch_name := music21_name;
     midi_write := λ _ _ _, ret ();
     makedirs := λ _, ret () |}.

Definition read_only : Collaborators :=
  {| pitch_name := music21_name;
     midi_write := λ _ _ _, raise OSError;
     makedirs := λ _, ret () |}.

Section generator.
Context `{Collaborators}.

(** ** [_get_chord_name] *)

Definition chord_type_of (intervals : list Z) : string :=
  if decide (intervals = [0; 4; 7]) then "major" else "minor".

Definition _get_chord_name (notes : list Z) : result string :=
  root ← py_min notes;
  let intervals := intervals_from root notes in
  let chord_type := chord_type_of intervals in
  name ← pitch_name root;
  ret (replace "-" "b" name +:+ "_" +:+ chord_type).

(** ** [_save_single] *)

(** The body of the [try] block: the names, the file name, the stream and
    the write; what it leaves on disk when nothing raised. *)
Definition _save_single_try (progression : progression) (output_dir : string)
    (d : disk) : result disk :=
  chord_names ← comprehension _get_chord_name progression;
  let filename := join "-" chord_names +:+ ".mid" in
  let fp := os_path_join output_dir filename in
  _ ← midi_write progression fp d;
  ret (<[fp := progression]> d).

(** [try: ...; return True / except: return False].  On an exception the
    disk is taken to be as the [try] block found it: what a write that
    raises half-way may leave behind is not modelled. *)
Definition _save_single (progression : progression) (output_dir : string)
    (d : disk) : bool * disk :=
  match _save_single_try progression output_dir d with
  | inr d' => (true, d')
  | inl _ => (false, d)
  end.

(** ** [generate_all] *)

(** The call's keyword arguments, each optional. *)
Record keywords := {
  kw_num_chords : option Z;
  kw_output_dir : option string;
  kw_max_workers : option Z;
}.

(** The parameters of [generate_all] once bound. *)
Record parameters := {
  num_chords : Z;
  output_dir : string;
  max_workers : Z;
}.

(** [def generate_all(self, num_chords=4, output_dir="chord_output",
    max_workers=8)] *)
Definition bind_parameters (kw : keywords) : parameters :=
  {| num_chords := default 4 (kw_num_chords kw);
     output_dir := default "chord_output" (kw_output_dir kw);
     max_workers := default 8 (kw_max_workers kw) |}.

(** The local constant of line 61. *)
Definition batch_size : nat := 1000.
Global Arguments batch_size : simpl never.

(** What a call hands back: Python's [None], or a summary of the run as
    the specification describes one. *)
Inductive retval :=
  | RNone
  | RSummary (total processed : nat).

(** A work item of the pool: the arguments of the submitted call and, once
    a worker has run it, its boolean result.  The future that [submit]
    returns is identified with the item's position in [executor]. *)
Record task := {
  t_progression : progression;
  t_output_dir : string;
  t_result : option bool;
}.

(** Where the coordinating thread stands. *)
Inductive location :=
  | AtFor                              (* line 63, about to take an item *)
  | InBatchDrain (waiting : gset nat)  (* line 75, inside as_completed *)
  | InFinalDrain (waiting : gset nat)  (* line 80, inside as_completed *)
  | Returned (v : retval)
  | Raised (e : exn).

Record state := {
  params : parameters;
  total : nat;
  all_combinations : list progression;  (* what the iterator has left *)
  i : nat;                              (* the index enumerate gives next *)
  futures : list nat;
  executor : list task;
  pbar : nat;                           (* the progress bar's count *)
  files : disk;
  stdout : list string;
  at_ : location;
}.

(** The text of the final [print]. *)
Definition newline : string := String "010" "".

Definition summary_line (total : nat) (output_dir : string) : string :=
  newline +:+ "🎉 全部完成！共生成 " +:+ pretty total +:+ " 个MIDI文件到 " +:+ output_dir.

(** The state in which the [for] loop of line 63 is entered: nothing
    submitted, nothing counted. *)
Definition enter_loop (p : parameters) (total : nat)
    (all_combinations : list progression) (d : disk) : state :=
  {| params := p; total := total; all_combinations := all_combinations;
     i := 0%nat; futures := []; executor := []; pbar := 0%nat;
     files := d; stdout := []; at_ := AtFor |}.

(** Lines 49 to 61: everything before the first iteration.  The directory
    is made, the product is set up (a negative [repeat] is refused), the
    total is computed, the pool is created (a pool size below one is
    refused).  The limits of the platform are left out: a [repeat] too
    large for the index array of the product, which [itertools.product]
    refuses with an [OverflowError], and the exhaustion of memory. *)
Definition generate_all_enter (self : ParallelChordGenerator)
    (p : parameters) (d : disk) : result state :=
  _ ← makedirs (output_dir p);
  all_combinations ←
    (if decide (num_chords p < 0) then raise ValueError
     else ret (product (templates self) (Z.to_nat (num_chords p))));
  let total := (length (templates self) ^ Z.to_nat (num_chords p))%nat in
  _ ← (if decide (max_workers p ≤ 0) then raise ValueError else ret ());
  ret (enter_loop p total all_combinations d).

(** The moves of the threads.  The coordinating thread runs from one
    suspension point to the next; [as_completed] hands it one finished
    future of those it was asked for; a pool thread runs one work item to
    its end. *)
Inductive event :=
  | Coordinator
  | Completed (f : nat)
  | Worker (f : nat).

Definition pending (t : task) : Prop := t_result t = None.

Global Instance pending_dec t : Decision (pending t).
Proof. unfold pending. apply _. Defined.

(** The submitted-but-unresolved work units. *)
Definition in_flight (st : state) : nat :=
  length (filter pending (executor st)).

Definition resolved (st : state) (f : nat) : bool :=
  match executor st !! f with
  | Some t => bool_decide (¬ pending t)
  | None => false
  end.

(** Lines 63 to 74: one turn of the [for] loop, up to the batch test. *)
Definition for_turn (st : state) : state :=
  match all_combinations st with
  | [] =>
      {| params := params st; total := total st; all_combinations := [];
         i := i st; futures := futures st; executor := executor st;
         pbar := pbar st; files := files st; stdout := stdout st;
         at_ := InFinalDrain (list_to_set (futures st)) |}
  | combo :: rest =>
      if decide (total st ≤ i st)%nat then
        {| params := params st; total := total st; all_combinations := rest;
           i := i st; futures := futures st; executor := executor st;
           pbar := pbar st; files := files st; stdout := stdout st;
           at_ := InFinalDrain (list_to_set (futures st)) |}
      else
        let future := length (executor st) in
        let futures' := futures st ++ [future] in
        {| params := params st; total := total st; all_combinations := rest;
           i := S (i st); futures := futures';
           executor := executor st ++
             [{| t_progression := combo;
                 t_output_dir := output_dir (params st);
                 t_result := None |}];
           pbar := pbar st; files := files st; stdout := stdout st;
           at_ := if decide (batch_size ≤ length futures')%nat
                  then InBatchDrain (list_to_set futures') else AtFor |}
  end.

(** Lines 76 and 77: the body of the batch drain for a yielded future. *)
Definition batch_drain_body (st : state) (waiting : gset nat) (f : nat) : state :=
  match list_remove f (futures st) with
  | inr futures' =>
      {| params := params st; total := total st;
         all_combinations := all_combinations st; i := i st;
         futures := futures'; executor := executor st;
         pbar := S (pbar st); files := files st; stdout := stdout st;
         at_ := InBatchDrain (waiting ∖ {[f]}) |}
  | inl e =>
      {| params := params st; total := total st;
         all_combinations := all_combinations st; i := i st;
         futures := futures st; executor := executor st;
         pbar := S (pbar st); files := files st; stdout := stdout st;
         at_ := Raised e |}
  end.

(** Line 81: the body of the final drain. *)
Definition final_drain_body (st : state) (waiting : gset nat) (f : nat) : state :=
  {| params := params st; total := total st;
     all_combinations := all_combinations st; i := i st;
     futures := futures st; executor := executor st;
     pbar := S (pbar st); files := files st; stdout := stdout st;
     at_ := InFinalDrain (waiting ∖ {[f]}) |}.

(** Lines 83 and 84, and the implicit [return None]. *)
Definition finish (st : state) : state :=
  {| params := params st; total := total st;
     all_combinations := all_combinations st; i := i st;
     futures := futures st; executor := executor st;
     pbar := pbar st; files := files st;
     stdout := stdout st ++ [summary_line (total st) (output_dir (params st))];
     at_ := Returned RNone |}.

(** A pool thread runs [_save_single] on work item [f] and resolves its
    future with the result.  The write and the resolution are one move: the
    instants between the two, when the file is there and the future still
    pending, are not states of the model. *)
Definition run_task (st : state) (f : nat) (t : task) : state :=
  let '(ok, d) := _save_single (t_progression t) (t_output_dir t) (files st) in
  {| params := params st; total := total st;
     all_combinations := all_combinations st; i := i st;
     futures := futures st;
     executor := <[f := {| t_progression := t_progression t;
                           t_output_dir := t_output_dir t;
                           t_result := Some ok |}]> (executor st);
     pbar := pbar st; files := d; stdout := stdout st; at_ := at_ st |}.

(** One move; [None] when the move is not enabled: the coordinating thread
    is blocked, the future is not finished or not among those waited for,
    the work item does not exist or has already run. *)
Definition step (st : state) (ev : event) : option state :=
  match ev with
  | Coordinator =>
      match at_ st with
      | AtFor => Some (for_turn st)
      | InBatchDrain waiting =>
          if decide (waiting = ∅) then
            Some {| params := params st; total := total st;
                    all_combinations := all_combinations st; i := i st;
                    futures := futures st; executor := executor st;
                    pbar := pbar st; files := files st; stdout := stdout st;
                    at_ := AtFor |}
          else None
      | InFinalDrain waiting =>
          (* leaving the [with] block waits for every work item *)
          if decide (waiting = ∅ ∧ in_flight st = 0%nat) then Some (finish st)
          else None
      | Returned _ | Raised _ => None
      end
  | Completed f =>
      match at_ st with
      | InBatchDrain waiting =>
          if bool_decide (f ∈ waiting) && resolved st f
          then Some (batch_drain_body st waiting f) else None
      | InFinalDrain waiting =>
          if bool_decide (f ∈ waiting) && resolved st f
          then Some (final_drain_body st waiting f) else None
      | _ => None
      end
  | Worker f =>
      match executor st !! f with
      | Some t => if decide (pending t) then Some (run_task st f t) else None
      | None => None
      end
  end.

(** A run: the moves taken one after the other. *)
Fixpoint run (st : state) (evs : list event) : option state :=
  match evs with
  | [] => Some st
  | ev :: evs' => st' ← step st ev; run st' evs'
  end.

(** [generate_all] under a schedule: the call is entered and the threads
    move as the schedule says.  [None] is a schedule the program cannot
    follow. *)
Definition generate_all (self : ParallelChordGenerator) (kw : keywords)
    (d : disk) (schedule : list event) : option (result state) :=
  match generate_all_enter self (bind_parameters kw) d with
  | inl e => Some (inl e)
  | inr st => inr <$> run st schedule
  end.

(** The script's entry point, lines 87 to 95. *)
Definition __main__ : disk → list event → option (result state) :=
  generate_all __init__
    {| kw_num_chords := Some 4;
       kw_output_dir := Some "chord_progressions";
       kw_max_workers := Some 8 |}.

End generator.

(** ** Observations, invariant and measure *)

(** The value a call has returned under a schedule, if it has. *)
Definition returned (r : option (result state)) : option retval :=
  match r with
  | Some (inr st) =>
      match at_ st with
      | Returned v => Some v
      | _ => None
      end
  | _ => None
  end.

(** What a test harness would read off a state: units submitted, units
    unresolved, tracked futures, progress count. *)
Definition observe (r : option (result state)) : option (nat * nat * nat * nat) :=
  match r with
  | Some (inr st) =>
      Some (length (executor st), in_flight st, length (futures st), pbar st)
  | _ => None
  end.

(** The booleans the work units have resolved to, in submission order. *)
Definition outcomes (r : option (result state)) : option (list (option bool)) :=
  match r with
  | Some (inr st) => Some (t_result <$> executor st)
  | _ => None
  end.

(** A character of the 7-bit ASCII range. *)
Definition is_ascii (c : ascii) : Prop := (nat_of_ascii c < 128)%nat.

(** What holds of every state of the loop entered with parameters [p],
    total [total0] and an iterator that yields [combos0]. *)
Record inv (p : parameters) (total0 : nat) (combos0 : list progression)
    (st : state) : Prop := {
  inv_params : params st = p;
  inv_total : total st = total0;
  inv_i : i st = length (executor st);
  inv_i_le : (i st ≤ total0)%nat;
  inv_submitted : t_progression <$> executor st = take (i st) combos0;
  inv_dirs : ∀ f t, executor st !! f = Some t → t_output_dir t = output_dir p;
  inv_nodup : NoDup (futures st);
  inv_tracked : ∀ f t, executor st !! f = Some t → pending t → f ∈ futures st;
  inv_known : ∀ f, f ∈ futures st → (f < length (executor st))%nat;
  inv_batch : (length (futures st) ≤ batch_size)%nat;
  inv_at :
    match at_ st with
    | AtFor =>
        (length (futures st) < batch_size)%nat
        ∧ (pbar st + length (futures st))%nat = length (executor st)
        ∧ all_combinations st = drop (i st) combos0
        ∧ stdout st = []
    | InBatchDrain waiting =>
        waiting = list_to_set (futures st)
        ∧ (pbar st + length (futures st))%nat = length (executor st)
        ∧ all_combinations st = drop (i st) combos0
        ∧ stdout st = []
    | InFinalDrain waiting =>
        waiting ⊆ list_to_set (futures st)
        ∧ (length (futures st) < batch_size)%nat
        ∧ (pbar st + size waiting)%nat = length (executor st)
        ∧ i st = (length combos0 `min` total0)%nat
        ∧ stdout st = []
    | Returned v =>
        v = RNone
        ∧ (length (futures st) < batch_size)%nat
        ∧ pbar st = length (executor st)
        ∧ in_flight st = 0%nat
        ∧ i st = (length combos0 `min` total0)%nat
        ∧ stdout st = [summary_line total0 (output_dir p)]
    | Raised _ => False
    end;
}.

(** A bound on the moves any schedule has left from a state. *)
Definition weight (l : location) : nat :=
  match l with
  | AtFor => batch_size + 1
  | InBatchDrain waiting => batch_size + 2 + size waiting
  | InFinalDrain waiting => 1 + size waiting
  | Returned _ | Raised _ => 0
  end.

Definition moves_left (st : state) : nat :=
  (batch_size + 3) * length (all_combinations st) + in_flight st
  + weight (at_ st).

(** ** Inputs for concrete runs *)

Definition no_keywords : keywords :=
  {| kw_num_chords := None; kw_output_dir := None; kw_max_workers := None |}.

Definition one_chord : keywords :=
  {| kw_num_chords := Some 1; kw_output_dir := None; kw_max_workers := None |}.

Definition zero_chords : keywords :=
  {| kw_num_chords := Some 0; kw_output_dir := None; kw_max_workers := None |}.

(** A full schedule for the 24 one-chord progressions: all submitted, the
    enumeration found exhausted, every item run, the futures handed back
    last first, the return. *)
Definition schedule_one_chord : list event :=
  replicate 25 Coordinator ++ (Worker <$> seq 0 24)
  ++ (Completed <$> rev (seq 0 24)) ++ [Coordinator].

(** The same run stopped midway: all submitted, three items run. *)
Definition schedule_midway : list event :=
  replicate 24 Coordinator ++ [Worker 3%nat; Worker 0%nat; Worker 7%nat].

(** A full schedule for the single empty progression. *)
Definition schedule_zero_chords : list event :=
  [Coordinator; Coordinator; Worker 0%nat; Completed 0%nat; Coordinator].

(** ** File names and the disk *)

Section files.
Context `{Collaborators}.

(** Lines 35 and 36: the file name of a progression. *)
Definition filename_of (progression : progression) : result string :=
  chord_names ← comprehension _get_chord_name progression;
  ret (join "-" chord_names +:+ ".mid").

(** Line 42: the path a progression is written to, when its chords can
    be named. *)
Definition path_of (output_dir : string) (progression : progression)
    : option string :=
  match filename_of progression with
  | inr filename => Some (os_path_join output_dir filename)
  | inl _ => None
  end.

(** The path of a work item. *)
Definition unit_path (t : task) : option string :=
  path_of (t_output_dir t) (t_progression t).

(** Some work item that has resolved to [True] holds [content] and has
    [fp] for its path. *)
Definition wrote (st : state) (fp : string) (content : progression) : Prop :=
  ∃ f t, executor st !! f = Some t ∧ t_result t = Some true
    ∧ unit_path t = Some fp ∧ t_progression t = content.

(** The disk of a state against the disk [d] the call found: a path holds
    what a successful work item with that path has written, and a path no
    successful item has is as it was found. *)
Definition disk_inv (d : disk) (st : state) : Prop :=
  ∀ fp,
    (∃ content, files st !! fp = Some content ∧ wrote st fp content)
    ∨ ((∀ content, ¬ wrote st fp content) ∧ files st !! fp = d !! fp).

(** Every boolean a work item has resolved to is what [_save_single]
    returned for it on some disk. *)
Definition results_inv (st : state) : Prop :=
  ∀ f t ok, executor st !! f = Some t → t_result t = Some ok →
    ∃ dk, (_save_single (t_progression t) (t_output_dir t) dk).1 = ok.

End files.

(** A name a chord can get: not empty and without the separator. *)
Definition plain_name (s : string) : Prop :=
  s ≠ "" ∧ "-"%char ∉ list_ascii_of_string s.

(** How the tracked futures follow the batches: outside the batch drain
    they are the units of the current, incomplete batch in submission
    order; inside it the last batch is complete and they are what is left
    of it. *)
Definition batched (st : state) : Prop :=
  match at_ st with
  | InBatchDrain _ =>
      (0 < i st)%nat ∧ (i st mod batch_size = 0)%nat
      ∧ ∀ f, f ∈ futures st → (i st - batch_size ≤ f)%nat
  | Raised _ => True
  | _ =>
      futures st
      = seq (batch_size * (i st / batch_size)) (i st mod batch_size)
  end.

(** ** Further inputs for concrete runs *)

(** The first part of [schedule_midway]: the 24 submissions. *)
Definition schedule_submissions : list event := replicate 24 Coordinator.

(** A loop state with one unit submitted and not yet run. *)
Definition one_submitted : state :=
  for_turn (enter_loop (bind_parameters zero_chords) 1 [[]] ∅).

(** * Properties *)

(** ** The catalog *)

Lemma length_range a b : length (range a b) = Z.to_nat (b - a).
Proof. unfold range. apply length_seqZ. Qed.

Lemma elem_of_range a b x : x ∈ range a b ↔ a ≤ x < b.
Proof. unfold range. rewrite elem_of_seqZ. lia. Qed.

Lemma py_min_triad r a b :
  0 ≤ a → 0 ≤ b → py_min [r; r + a; r + b] = inr r.
Proof. intros Ha Hb. unfold py_min, ret. simpl. f_equal. lia. Qed.

Lemma intervals_triad r a b :
  intervals_from r [r; r + a; r + b] = sorted [0; a; b].
Proof.
  unfold intervals_from. simpl.
  by replace (r - r) with 0 by lia; replace (r + a - r) with a by lia;
    replace (r + b - r) with b by lia.
Qed.

(** C4: for [low <= high] the catalog has [2 * (high - low + 1)] templates,
    the major triads on the roots [low..high] in order followed by the
    minor triads on the same roots; every template has three notes, is
    [[root + i for i in shape]] for a root of the range and one of the two
    shapes, and its sorted intervals above its lowest note are that shape. *)
Theorem build_catalog_spec (low high : Z) :
  low ≤ high →
  let catalog := build_catalog [0; 4; 7] [0; 3; 7] low high in
  let n := Z.to_nat (high - low + 1) in
  Z.of_nat (length catalog) = 2 * (high - low + 1)
  ∧ take n catalog = (λ root, (λ i, root + i) <$> [0; 4; 7]) <$> range low (high + 1)
  ∧ drop n catalog = (λ root, (λ i, root + i) <$> [0; 3; 7]) <$> range low (high + 1)
  ∧ ∀ t, t ∈ catalog →
      length t = 3%nat
      ∧ ∃ root shape,
          low ≤ root ≤ high
          ∧ (shape = [0; 4; 7] ∨ shape = [0; 3; 7])
          ∧ t = (λ i, root + i) <$> shape
          ∧ py_min t = inr root
          ∧ intervals_from root t = shape.
Proof.
  intros Hle catalog n.
  assert (Hn : length (range low (high + 1)) = n).
  { rewrite length_range. unfold n. f_equal. lia. }
  assert (Hshape : ∀ s : list Z,
    (λ i, (λ k, k + i) <$> s) <$> range low (high + 1)
    = (λ root, (λ i, root + i) <$> s) <$> range low (high + 1)).
  { intros s. apply list_fmap_ext. intros _ root _.
    apply list_fmap_ext. intros _ k _. lia. }
  unfold catalog, build_catalog. rewrite !Hshape.
  split; [|split; [|split]].
  - rewrite length_app, !length_fmap, Hn. unfold n. lia.
  - rewrite take_app_length'; [done|]. by rewrite length_fmap.
  - rewrite drop_app_length'; [done|]. by rewrite length_fmap.
  - intros t Ht. apply elem_of_app in Ht.
    destruct Ht as [Ht|Ht]; apply list_elem_of_fmap in Ht;
      destruct Ht as (root & -> & Hroot); apply elem_of_range in Hroot;
      (split; [done|]).
    + exists root, [0; 4; 7]. split; [lia|]. split; [by left|].
      split; [done|]. simpl. replace (root + 0) with root by lia.
      split; [by apply py_min_triad|]. by rewrite intervals_triad.
    + exists root, [0; 3; 7]. split; [lia|]. split; [by right|].
      split; [done|]. simpl. replace (root + 0) with root by lia.
      split; [by apply py_min_triad|]. by rewrite intervals_triad.
Qed.

Lemma build_catalog_spec_witness :
  48 ≤ 59 ∧
  take 12 (templates __init__) =
    (λ root, (λ i, root + i) <$> [0; 4; 7]) <$> range 48 60.
Proof.
  split; [lia|].
  exact (proj1 (proj2 (build_catalog_spec 48 59 ltac:(lia)))).
Defined.

(** ** Chord naming *)

Lemma chars_app (s1 s2 : string) :
  list_ascii_of_string (s1 +:+ s2) =
  list_ascii_of_string s1 ++ list_ascii_of_string s2.
Proof. induction s1 as [|c s1 IH]; simpl; [done|]. by rewrite IH. Qed.

Lemma chars_replace a b s :
  list_ascii_of_string (replace a b s) =
  (λ c, if decide (c = a) then b else c) <$> list_ascii_of_string s.
Proof. induction s as [|c s IH]; simpl; [done|]. by rewrite IH. Qed.



Section naming.
Context `{Collaborators}.

Lemma get_chord_name_eq notes root name :
  py_min notes = inr root → pitch_name root = inr name →
  _get_chord_name notes =
    inr (replace "-" "b" name +:+ "_" +:+ chord_type_of (intervals_from root notes)).
Proof. intros Hmin Hname. unfold _get_chord_name. by rewrite Hmin; simpl; rewrite Hname. Qed.

Lemma get_chord_name_inv notes s :
  _get_chord_name notes = inr s →
  ∃ root name, py_min notes = inr root ∧ pitch_name root = inr name ∧
    s = replace "-" "b" name +:+ "_" +:+ chord_type_of (intervals_from root notes).
Proof.
  unfold _get_chord_name. destruct (py_min notes) as [e|root]; simpl; [done|].
  destruct (pitch_name root) as [e|name] eqn:Hname; simpl; [done|].
  intros [= <-]. by exists root, name.
Qed.

End naming.

Lemma chord_type_of_chars ivs c :
  c ∈ list_ascii_of_string (chord_type_of ivs) → c ≠ "-"%char ∧ is_ascii c.
Proof.
  unfold chord_type_of. case_decide; simpl; intros Hc;
    repeat (apply elem_of_cons in Hc as [->|Hc]; [by split; [|vm_compute; lia]|]);
    by apply elem_of_nil in Hc.
Qed.



(** C5 (as the code has it): on a non-empty chord the lowest note is found,
    and once the pitch utility has named it the chord is named; the type in
    the name is "major" exactly when the sorted intervals are [[0, 4, 7]]
    and "minor" for every other pattern, [[0, 3, 7]] among them. *)
Theorem get_chord_name_major_else_minor `{Collaborators} (notes : list Z) :
  notes ≠ [] →
  ∃ root, py_min notes = inr root
    ∧ ∀ name, pitch_name root = inr name →
        ∃ chord_type,
          _get_chord_name notes = inr (replace "-" "b" name +:+ "_" +:+ chord_type)
          ∧ (chord_type = "major" ↔ intervals_from root notes = [0; 4; 7])
          ∧ (chord_type = "minor" ↔ intervals_from root notes ≠ [0; 4; 7]).
Proof.
  intros Hne. destruct notes as [|n ns]; [done|].
  eexists. split; [reflexivity|]. intros name Hname.
  eexists. split; [by apply get_chord_name_eq|].
  unfold chord_type_of. case_decide; split; split; done.
Qed.

Lemma get_chord_name_major_else_minor_witness :
  [48; 51; 55] ≠ [] ∧
  ∃ root, py_min [48; 51; 55] = inr root
    ∧ ∀ name, pitch_name (Collaborators := reliable) root = inr name →
        ∃ chord_type,
          _get_chord_name (H := reliable) [48; 51; 55] =
            inr (replace "-" "b" name +:+ "_" +:+ chord_type)
          ∧ (chord_type = "major" ↔ intervals_from root [48; 51; 55] = [0; 4; 7])
          ∧ (chord_type = "minor" ↔ intervals_from root [48; 51; 55] ≠ [0; 4; 7]).
Proof.
  split; [done|]. apply (get_chord_name_major_else_minor (H := reliable)). done.
Defined.

(** C5 fails as stated: a three-note chord whose sorted intervals are
    [[0, 2, 7]], neither of the two shapes, is named without any failure,
    and named a minor chord. *)
Lemma get_chord_name_other_shape :
  length [48; 50; 55] = 3%nat
  ∧ intervals_from 48 [48; 50; 55] = [0; 2; 7]
  ∧ intervals_from 48 [48; 50; 55] ≠ [0; 4; 7]
  ∧ intervals_from 48 [48; 50; 55] ≠ [0; 3; 7]
  ∧ _get_chord_name (H := reliable) [48; 50; 55] = inr "C_minor".
Proof. repeat split; done. Qed.

(** ** Lists of futures *)

Lemma length_product {A} (pool : list A) n :
  length (product pool n) = (length pool ^ n)%nat.
Proof.
  induction n as [|n IH]; simpl; [done|].
  rewrite <- IH. generalize (product pool n). clear IH. intros rest.
  induction pool as [|x pool IHp]; simpl; [done|].
  rewrite length_app, length_fmap. unfold mbind in IHp. rewrite IHp. lia.
Qed.

Lemma list_remove_elem_of f l :
  f ∈ l → ∃ l', list_remove f l = inr l' ∧ length l = S (length l').
Proof.
  induction l as [|y l IH]; intros Hf; [by apply elem_of_nil in Hf|].
  simpl. case_decide as Hy; [by eexists|].
  apply elem_of_cons in Hf as [->|Hf]; [done|].
  destruct (IH Hf) as (l' & -> & Hlen). simpl. eexists. split; [done|].
  simpl. lia.
Qed.

Lemma list_remove_NoDup f l l' :
  NoDup l → list_remove f l = inr l' →
  NoDup l' ∧ ∀ x, x ∈ l' ↔ x ∈ l ∧ x ≠ f.
Proof.
  revert l'. induction l as [|y l IH]; intros l' Hnd; simpl; [done|].
  apply NoDup_cons in Hnd as [Hy Hnd]. case_decide as Hyf.
  - intros [= <-]. split; [done|]. intros x. rewrite elem_of_cons.
    subst y. split; [|by intros [[?|?] ?]]. intros Hx. split; [by right|].
    by intros ->.
  - destruct (list_remove f l) as [e|l''] eqn:Hrem; simpl; [done|].
    intros [= <-]. destruct (IH l'' Hnd eq_refl) as [Hnd' Hiff].
    split.
    + apply NoDup_cons. split; [|done]. rewrite Hiff. by intros [? _].
    + intros x. rewrite !elem_of_cons, Hiff. split.
      * intros [->|[? ?]]; [by split; [left|]|by split; [right|]].
      * intros [[?|?] ?]; [by left|by right].
Qed.

(** The pending items of a pool are no more than the futures that track
    them. *)
Lemma pending_le_tracked (l : list task) (futs : list nat) :
  NoDup futs →
  (∀ f t, l !! f = Some t → pending t → f ∈ futs) →
  (length (filter pending l) ≤ length futs)%nat.
Proof.
  revert futs. induction l as [|t l IH] using rev_ind; intros futs Hnd Htr.
  { simpl. lia. }
  rewrite filter_app, length_app.
  assert (Hl : ∀ f t', l !! f = Some t' → pending t' → f ∈ futs).
  { intros f t' Hf. apply Htr. by apply lookup_app_l_Some. }
  destruct (decide (pending t)) as [Hp|Hp].
  - rewrite filter_cons_True, filter_nil by done. simpl.
    assert (Hin : length l ∈ futs).
    { apply (Htr _ t); [|done]. by rewrite list_lookup_middle. }
    destruct (list_remove_elem_of _ _ Hin) as (futs' & Hrem & Hlen).
    destruct (list_remove_NoDup _ _ _ Hnd Hrem) as [Hnd' Hiff].
    specialize (IH futs' Hnd'). rewrite Hlen.
    cut (length (filter pending l) ≤ length futs')%nat; [lia|].
    apply IH. intros f t' Hf Hpf. apply Hiff. split; [by eapply Hl|].
    apply lookup_lt_Some in Hf. lia.
  - rewrite filter_cons_False, filter_nil by done. simpl.
    specialize (IH futs Hnd Hl). lia.
Qed.

Lemma filter_pending_insert (l : list task) f t t' :
  l !! f = Some t → pending t → ¬ pending t' →
  length (filter pending l) = S (length (filter pending (<[f := t']> l))).
Proof.
  revert f. induction l as [|x l IH]; intros f; [done|].
  destruct f as [|f]; simpl.
  - intros [= ->] Hp Hp'. by rewrite filter_cons_True, filter_cons_False.
  - intros Hf Hp Hp'. destruct (decide (pending x)).
    + rewrite !filter_cons_True by done. simpl. f_equal. by apply IH.
    + rewrite !filter_cons_False by done. by apply IH.
Qed.

Lemma filter_pending_nil_iff (l : list task) :
  length (filter pending l) = 0%nat ↔ ∀ f t, l !! f = Some t → ¬ pending t.
Proof.
  split.
  - intros Hlen f t Hf Hp.
    assert (Hin : t ∈ filter pending l).
    { apply list_elem_of_filter. split; [done|]. by eapply list_elem_of_lookup_2. }
    destruct (filter pending l); [by apply elem_of_nil in Hin|done].
  - intros Hall. induction l as [|x l IH]; [done|].
    rewrite filter_cons_False; [|by apply (Hall 0%nat)].
    apply IH. intros f t. apply (Hall (S f)).
Qed.

(** ** List comprehensions *)

Lemma comprehension_Forall2 {A B} (f : A → result B) (l : list A) (ys : list B) :
  comprehension f l = inr ys ↔ Forall2 (λ x y, f x = inr y) l ys.
Proof.
  revert ys. induction l as [|x l IH]; intros ys; simpl.
  - unfold ret. split.
    + intros [= <-]. constructor.
    + intros Hall. by apply Forall2_nil_inv_l in Hall as ->.
  - destruct (f x) as [e|y] eqn:Hx; simpl.
    + split; [done|]. intros Hall.
      apply Forall2_cons_inv_l in Hall as (y & ys' & Hy & _ & _). congruence.
    + destruct (comprehension f l) as [e|ys'] eqn:Hl; simpl.
      * split; [done|]. intros Hall.
        apply Forall2_cons_inv_l in Hall as (y' & ys' & _ & Hall & _).
        by apply IH in Hall.
      * unfold ret. split.
        -- intros [= <-]. constructor; [done|]. by apply IH.
        -- intros Hall.
           apply Forall2_cons_inv_l in Hall as (y' & ys'' & Hy & Hall & ->).
           apply IH in Hall. congruence.
Qed.

Lemma comprehension_inl {A B} (f : A → result B) (l : list A) x e :
  x ∈ l → f x = inl e → ∃ e', comprehension f l = inl e'.
Proof.
  intros Hin Hx. induction l as [|y l IH]; [by apply elem_of_nil in Hin|].
  simpl. apply elem_of_cons in Hin as [<-|Hin].
  - rewrite Hx. by eexists.
  - destruct (f y) as [e1|b]; simpl; [by eexists|].
    destruct (IH Hin) as [e' ->]. by eexists.
Qed.

Section dispatcher.
Context `{Collaborators}.

Lemma batch_size_pos : (0 < batch_size)%nat.
Proof. unfold batch_size. lia. Qed.

Lemma inv_enter_loop p total0 combos0 d :
  inv p total0 combos0 (enter_loop p total0 combos0 d).
Proof.
  split; simpl; try done.
  - lia.
  - apply NoDup_nil_2.
  - intros f Hf. by apply elem_of_nil in Hf.
  - lia.
  - split; [apply batch_size_pos|]. done.
Qed.

Lemma inv_in_flight p total0 combos0 st :
  inv p total0 combos0 st → (in_flight st ≤ length (futures st))%nat.
Proof.
  intros Hinv. unfold in_flight.
  apply pending_le_tracked; [apply Hinv|]. apply Hinv.
Qed.

Lemma size_futures p total0 combos0 st :
  inv p total0 combos0 st →
  size (list_to_set (C := gset nat) (futures st)) = length (futures st).
Proof. intros Hinv. apply size_list_to_set, Hinv. Qed.

Lemma drop_cons_inv {A} (l : list A) n x rest :
  drop n l = x :: rest →
  l !! n = Some x ∧ rest = drop (S n) l ∧ (n < length l)%nat.
Proof.
  intros Hd.
  assert (Hx : l !! n = Some x).
  { rewrite <- (Nat.add_0_r n), <- lookup_drop, Hd. done. }
  split; [done|]. split.
  - rewrite (drop_S _ _ _ Hx) in Hd. by injection Hd.
  - by eapply lookup_lt_Some.
Qed.

Lemma inv_i_combos p total0 combos0 st :
  inv p total0 combos0 st → (i st ≤ length combos0)%nat.
Proof.
  intros Hinv. pose proof (f_equal length (inv_submitted _ _ _ _ Hinv)) as Hlen.
  rewrite length_fmap, length_take, <- (inv_i _ _ _ _ Hinv) in Hlen. lia.
Qed.

Lemma inv_for_turn p total0 combos0 st :
  inv p total0 combos0 st → at_ st = AtFor →
  inv p total0 combos0 (for_turn st).
Proof.
  intros Hinv Hat. pose proof (inv_at _ _ _ _ Hinv) as Hloc.
  rewrite Hat in Hloc. destruct Hloc as (Hlt & Hpbar & Hrest & Hout).
  pose proof (size_futures _ _ _ _ Hinv) as Hsize.
  pose proof (inv_i_combos _ _ _ _ Hinv) as Hic.
  destruct Hinv as [Hp Ht Hi Hile Hsub Hdirs Hnd Htr Hkn Hb _].
  unfold for_turn. destruct (all_combinations st) as [|combo rest] eqn:Hcomb.
  - (* the iterator is exhausted *)
    split; simpl; try done.
    split; [done|]. split; [done|]. split; [by rewrite Hsize|]. split; [|done].
    assert (length (drop (i st) combos0) = 0%nat) as Hlen by by rewrite <- Hrest.
    rewrite length_drop in Hlen. lia.
  - symmetry in Hrest. apply drop_cons_inv in Hrest as (Hcombo & -> & Hlen).
    case_decide as Hcap.
    + (* the cap: break *)
      split; simpl; try done.
      split; [done|]. split; [done|]. split; [by rewrite Hsize|].
      split; [|done]. lia.
    + (* submit *)
      assert (Hfresh : length (executor st) ∉ futures st).
      { intros Hin. apply Hkn in Hin. lia. }
      split; simpl.
      * done.
      * done.
      * rewrite length_app. simpl. lia.
      * lia.
      * rewrite fmap_app, Hsub. simpl. by rewrite (take_S_r _ _ _ Hcombo).
      * intros f t Hf. apply lookup_app_Some in Hf as [Hf|[_ Hf]]; [by eapply Hdirs|].
        apply list_lookup_singleton_Some in Hf as [_ <-]. simpl. by rewrite Hp.
      * apply NoDup_app. split; [done|]. split; [|apply NoDup_singleton].
        intros f Hf Hf'. apply list_elem_of_singleton in Hf'. by subst f.
      * intros f t Hf Hpend. apply elem_of_app.
        apply lookup_app_Some in Hf as [Hf|[Hge Hf]]; [left; by eapply Htr|].
        right. apply list_lookup_singleton_Some in Hf as [Hf _].
        apply list_elem_of_singleton. lia.
      * intros f Hf. rewrite length_app. simpl.
        apply elem_of_app in Hf as [Hf|Hf]; [apply Hkn in Hf; lia|].
        apply list_elem_of_singleton in Hf. lia.
      * rewrite length_app. simpl. lia.
      * rewrite !length_app. simpl. case_decide.
        -- split; [done|]. split; [lia|]. done.
        -- split; [lia|]. split; [lia|]. done.
Qed.
Lemma resolved_spec st f :
  resolved st f = true ↔ ∃ t, executor st !! f = Some t ∧ ¬ pending t.
Proof.
  unfold resolved. destruct (executor st !! f) as [t|].
  - rewrite bool_decide_eq_true. split; [by exists t|]. by intros (? & [= <-] & ?).
  - split; [done|]. by intros (? & ? & _).
Qed.

Lemma inv_batch_drain_body p total0 combos0 st waiting f :
  inv p total0 combos0 st → at_ st = InBatchDrain waiting → f ∈ waiting →
  resolved st f = true →
  inv p total0 combos0 (batch_drain_body st waiting f)
  ∧ ∃ futures', list_remove f (futures st) = inr futures'
      ∧ futures (batch_drain_body st waiting f) = futures'.
Proof.
  intros Hinv Hat Hf Hres. pose proof (inv_at _ _ _ _ Hinv) as Hloc.
  rewrite Hat in Hloc. destruct Hloc as (-> & Hpbar & Hrest & Hout).
  apply resolved_spec in Hres as (tf & Htf & Hdone).
  destruct Hinv as [Hp Ht Hi Hile Hsub Hdirs Hnd Htr Hkn Hb _].
  apply elem_of_list_to_set in Hf.
  destruct (list_remove_elem_of _ _ Hf) as (futures' & Hrem & Hlen).
  destruct (list_remove_NoDup _ _ _ Hnd Hrem) as [Hnd' Hiff].
  unfold batch_drain_body. rewrite Hrem. split; [|by eexists].
  split; simpl; try done.
  - intros g t Hg Hpend. apply Hiff. split; [by eapply Htr|].
    intros ->. rewrite Htf in Hg. injection Hg as ->. done.
  - intros g Hg. apply Hkn. by apply Hiff.
  - lia.
  - split; [|split; [lia|done]].
    apply set_eq. intros x. rewrite elem_of_difference, !elem_of_list_to_set, Hiff.
    rewrite elem_of_singleton. done.
Qed.

Lemma size_remove (waiting : gset nat) f :
  f ∈ waiting → size waiting = S (size (waiting ∖ {[f]})).
Proof.
  intros Hf. rewrite size_difference by set_solver. rewrite size_singleton.
  assert (size waiting ≠ 0%nat); [|lia].
  rewrite size_non_empty_iff. set_solver.
Qed.

Lemma inv_final_drain_body p total0 combos0 st waiting f :
  inv p total0 combos0 st → at_ st = InFinalDrain waiting → f ∈ waiting →
  inv p total0 combos0 (final_drain_body st waiting f).
Proof.
  intros Hinv Hat Hf. pose proof (inv_at _ _ _ _ Hinv) as Hloc.
  rewrite Hat in Hloc. destruct Hloc as (Hsub' & Hlt & Hpbar & Hmin & Hout).
  destruct Hinv as [Hp Ht Hi Hile Hsub Hdirs Hnd Htr Hkn Hb _].
  split; simpl; try done.
  split; [|split; [done|split; [|done]]].
  - intros x Hx. apply Hsub'. by apply elem_of_difference in Hx as [? _].
  - pose proof (size_remove _ _ Hf). lia.
Qed.

Lemma inv_batch_drain_end p total0 combos0 st :
  inv p total0 combos0 st → at_ st = InBatchDrain ∅ →
  inv p total0 combos0
    {| params := params st; total := total st;
       all_combinations := all_combinations st; i := i st;
       futures := futures st; executor := executor st;
       pbar := pbar st; files := files st; stdout := stdout st;
       at_ := AtFor |}.
Proof.
  intros Hinv Hat. pose proof (inv_at _ _ _ _ Hinv) as Hloc.
  rewrite Hat in Hloc. destruct Hloc as (Hempty & Hpbar & Hrest & Hout).
  destruct Hinv as [Hp Ht Hi Hile Hsub Hdirs Hnd Htr Hkn Hb _].
  split; simpl; try done.
  split; [|done].
  destruct (futures st) as [|f fs]; [simpl; apply batch_size_pos|].
  exfalso. apply (not_elem_of_empty (C := gset nat) f). rewrite Hempty.
  set_solver.
Qed.

Lemma inv_finish p total0 combos0 st :
  inv p total0 combos0 st → at_ st = InFinalDrain ∅ → in_flight st = 0%nat →
  inv p total0 combos0 (finish st).
Proof.
  intros Hinv Hat Hfl. pose proof (inv_at _ _ _ _ Hinv) as Hloc.
  rewrite Hat in Hloc. destruct Hloc as (_ & Hlt & Hpbar & Hmin & Hout).
  destruct Hinv as [Hp Ht Hi Hile Hsub Hdirs Hnd Htr Hkn Hb _].
  split; simpl; try done.
  rewrite size_empty in Hpbar.
  split; [done|]. split; [done|]. split; [lia|]. split; [done|].
  split; [done|].
  by rewrite Hout, Ht, Hp.
Qed.

Lemma inv_run_task p total0 combos0 st f t :
  inv p total0 combos0 st → executor st !! f = Some t → pending t →
  inv p total0 combos0 (run_task st f t)
  ∧ in_flight st = S (in_flight (run_task st f t)).
Proof.
  intros Hinv Hf Hpend. pose proof (inv_at _ _ _ _ Hinv) as Hloc.
  destruct Hinv as [Hp Ht Hi Hile Hsub Hdirs Hnd Htr Hkn Hb _].
  unfold run_task.
  destruct (_save_single (t_progression t) (t_output_dir t) (files st))
    as [ok d] eqn:Hsave.
  split.
  - split; simpl; try done.
    + by rewrite length_insert.
    + rewrite list_fmap_insert. simpl. rewrite list_insert_id; [done|].
      by rewrite list_lookup_fmap, Hf.
    + intros g t' Hg. destruct (decide (g = f)) as [->|Hne].
      * rewrite list_lookup_insert_eq in Hg by by eapply lookup_lt_Some.
        injection Hg as <-. simpl. by eapply Hdirs.
      * rewrite list_lookup_insert_ne in Hg by done. by eapply Hdirs.
    + intros g t' Hg Hpg. destruct (decide (g = f)) as [->|Hne].
      * rewrite list_lookup_insert_eq in Hg by by eapply lookup_lt_Some.
        injection Hg as <-. done.
      * rewrite list_lookup_insert_ne in Hg by done. by eapply Htr.
    + intros g Hg. rewrite length_insert. by apply Hkn.
    + rewrite length_insert.
      destruct (at_ st); try done.
      destruct Hloc as (_ & _ & _ & Hfl & _). exfalso.
      unfold in_flight in Hfl. rewrite filter_pending_nil_iff in Hfl.
      by eapply Hfl.
  - unfold in_flight. simpl. by eapply filter_pending_insert.
Qed.
Lemma inv_step p total0 combos0 st ev st' :
  inv p total0 combos0 st → step st ev = Some st' → inv p total0 combos0 st'.
Proof.
  intros Hinv Hstep. destruct ev as [|f|f]; simpl in Hstep.
  - destruct (at_ st) as [|waiting|waiting|v|e] eqn:Hat; try done.
    + injection Hstep as <-. by apply inv_for_turn.
    + case_decide as Hw; [|done]. subst waiting. injection Hstep as <-.
      by apply inv_batch_drain_end.
    + case_decide as Hw; [|done]. destruct Hw as [-> Hfl].
      injection Hstep as <-. by apply inv_finish.
  - destruct (at_ st) as [|waiting|waiting|v|e] eqn:Hat; try done.
    + destruct (bool_decide (f ∈ waiting)) eqn:Hf; [|done].
      destruct (resolved st f) eqn:Hres; [|done]. simpl in Hstep.
      injection Hstep as <-. apply bool_decide_eq_true in Hf.
      by apply inv_batch_drain_body.
    + destruct (bool_decide (f ∈ waiting)) eqn:Hf; [|done].
      destruct (resolved st f) eqn:Hres; [|done]. simpl in Hstep.
      injection Hstep as <-. apply bool_decide_eq_true in Hf.
      by apply inv_final_drain_body.
  - destruct (executor st !! f) as [t|] eqn:Hf; [|done].
    case_decide as Hpend; [|done]. injection Hstep as <-.
    by apply inv_run_task.
Qed.

Lemma inv_run p total0 combos0 st evs st' :
  inv p total0 combos0 st → run st evs = Some st' → inv p total0 combos0 st'.
Proof.
  revert st. induction evs as [|ev evs IH]; intros st Hinv; simpl.
  - by intros [= <-].
  - destruct (step st ev) as [st1|] eqn:Hstep; simpl; [|done].
    apply IH. by eapply inv_step.
Qed.

Lemma run_app st evs1 evs2 :
  run st (evs1 ++ evs2) = st' ← run st evs1; run st' evs2.
Proof.
  revert st. induction evs1 as [|ev evs1 IH]; intros st; simpl; [done|].
  destruct (step st ev); simpl; [apply IH|done].
Qed.

(** *** Termination *)

Local Opaque batch_size.

Lemma step_moves_left p total0 combos0 st ev st' :
  inv p total0 combos0 st → step st ev = Some st' →
  (moves_left st' < moves_left st)%nat.
Proof.
  intros Hinv Hstep. pose proof (inv_at _ _ _ _ Hinv) as Hloc.
  pose proof (size_futures _ _ _ _ Hinv) as Hsize.
  pose proof (inv_batch _ _ _ _ Hinv) as Hb.
  unfold moves_left. destruct ev as [|f|f]; simpl in Hstep.
  - destruct (at_ st) as [|waiting|waiting|v|e] eqn:Hat; try done.
    + injection Hstep as <-. destruct Hloc as (Hlt & _).
      unfold for_turn, in_flight.
      destruct (all_combinations st) as [|combo rest]; simpl.
      { rewrite Hsize. lia. }
      case_decide; simpl.
      { rewrite Hsize. lia. }
      rewrite filter_app, !length_app. simpl.
      case_decide; simpl; [|lia].
      rewrite size_list_to_set, length_app; simpl; [lia|].
      apply NoDup_app. split; [apply Hinv|]. split; [|apply NoDup_singleton].
      intros g Hg Hg'. apply list_elem_of_singleton in Hg'. subst g.
      apply (inv_known _ _ _ _ Hinv) in Hg. lia.
    + case_decide as Hw; [|done]. subst waiting. injection Hstep as <-.
      unfold in_flight. simpl. lia.
    + case_decide as Hw; [|done]. destruct Hw as [-> Hfl].
      injection Hstep as <-. unfold finish, in_flight. simpl. lia.
  - destruct (at_ st) as [|waiting|waiting|v|e] eqn:Hat; try done.
    + destruct (bool_decide (f ∈ waiting)) eqn:Hf; [|done].
      destruct (resolved st f) eqn:Hres; [|done]. simpl in Hstep.
      injection Hstep as <-. apply bool_decide_eq_true in Hf.
      destruct (inv_batch_drain_body _ _ _ _ _ _ Hinv Hat Hf Hres)
        as (_ & futures' & Hrem & _).
      unfold batch_drain_body, in_flight. rewrite Hrem. simpl.
      rewrite (size_remove _ _ Hf). lia.
    + destruct (bool_decide (f ∈ waiting)) eqn:Hf; [|done].
      destruct (resolved st f) eqn:Hres; [|done]. simpl in Hstep.
      injection Hstep as <-. apply bool_decide_eq_true in Hf.
      unfold final_drain_body, in_flight. simpl.
      rewrite (size_remove _ _ Hf). lia.
  - destruct (executor st !! f) as [t|] eqn:Hf; [|done].
    case_decide as Hpend; [|done]. injection Hstep as <-.
    destruct (inv_run_task _ _ _ _ _ _ Hinv Hf Hpend) as [_ Hfl].
    rewrite Hfl. unfold run_task.
    destruct (_save_single _ _ _). simpl. unfold in_flight. simpl. lia.
Qed.

Local Transparent batch_size.

Lemma run_moves_left p total0 combos0 st evs st' :
  inv p total0 combos0 st → run st evs = Some st' →
  (length evs + moves_left st' ≤ moves_left st)%nat.
Proof.
  revert st. induction evs as [|ev evs IH]; intros st Hinv; simpl.
  - intros [= <-]. lia.
  - destruct (step st ev) as [st1|] eqn:Hstep; simpl; [|done].
    intros Hrun. apply IH in Hrun; [|by eapply inv_step].
    pose proof (step_moves_left _ _ _ _ _ _ Hinv Hstep). lia.
Qed.

(** *** Progress: no reachable state is stuck short of the return *)

Lemma inv_progress p total0 combos0 st :
  inv p total0 combos0 st →
  (∃ v, at_ st = Returned v) ∨ ∃ ev st', step st ev = Some st'.
Proof.
  intros Hinv. pose proof (inv_at _ _ _ _ Hinv) as Hloc.
  destruct (at_ st) as [|waiting|waiting|v|e] eqn:Hat; [| | | |done].
  - right. exists Coordinator. simpl. rewrite Hat. by eexists.
  - right. destruct (decide (waiting = ∅)) as [->|Hne].
    { exists Coordinator. simpl. rewrite Hat, decide_True by done. by eexists. }
    apply set_choose_L in Hne as [f Hf].
    destruct Hloc as (-> & _). apply elem_of_list_to_set in Hf as Hf'.
    apply (inv_known _ _ _ _ Hinv) in Hf'.
    apply lookup_lt_is_Some in Hf' as [t Ht].
    destruct (decide (pending t)) as [Hp|Hp].
    + exists (Worker f). simpl. rewrite Ht, decide_True by done. by eexists.
    + exists (Completed f). simpl. rewrite Hat, bool_decide_eq_true_2 by done.
      unfold resolved. rewrite Ht, bool_decide_eq_true_2 by done. by eexists.
  - right. destruct (decide (waiting = ∅)) as [->|Hne].
    { destruct (decide (in_flight st = 0%nat)) as [Hfl|Hfl].
      - exists Coordinator. simpl. rewrite Hat, decide_True by done. by eexists.
      - unfold in_flight in Hfl.
        destruct (filter pending (executor st)) as [|t ts] eqn:Hfilter; [done|].
        assert (Ht : t ∈ filter pending (executor st)) by (rewrite Hfilter; left).
        apply list_elem_of_filter in Ht as [Hp Ht].
        apply list_elem_of_lookup in Ht as [f Ht].
        exists (Worker f). simpl. rewrite Ht, decide_True by done. by eexists. }
    apply set_choose_L in Hne as [f Hf].
    destruct Hloc as (Hsub & _). assert (Hf' : f ∈ futures st) by set_solver.
    apply (inv_known _ _ _ _ Hinv) in Hf'.
    apply lookup_lt_is_Some in Hf' as [t Ht].
    destruct (decide (pending t)) as [Hp|Hp].
    + exists (Worker f). simpl. rewrite Ht, decide_True by done. by eexists.
    + exists (Completed f). simpl. rewrite Hat, bool_decide_eq_true_2 by done.
      unfold resolved. rewrite Ht, bool_decide_eq_true_2 by done. by eexists.
  - left. by eexists.
Qed.

(** Every reachable state has a schedule that takes it to the return. *)
Lemma inv_completes p total0 combos0 st :
  inv p total0 combos0 st →
  ∃ evs st', run st evs = Some st' ∧ at_ st' = Returned RNone.
Proof.
  remember (moves_left st) as n eqn:Hn. revert st Hn.
  induction (lt_wf n) as [n _ IH]. intros st -> Hinv.
  destruct (inv_progress _ _ _ _ Hinv) as [[v Hv]|(ev & st1 & Hstep)].
  - exists [], st. split; [done|].
    pose proof (inv_at _ _ _ _ Hinv) as Hloc. rewrite Hv in Hloc.
    destruct Hloc as [-> _]. done.
  - destruct (IH (moves_left st1)) with (st := st1) as (evs & st' & Hrun & Hret).
    + by eapply step_moves_left.
    + done.
    + by eapply inv_step.
    + exists (ev :: evs), st'. simpl. rewrite Hstep. done.
Qed.
(** *** From the call to the loop *)

Lemma generate_all_enter_inr self p d st :
  generate_all_enter self p d = inr st →
  0 ≤ num_chords p ∧ 0 < max_workers p ∧ makedirs (output_dir p) = inr ()
  ∧ st = enter_loop p (length (templates self) ^ Z.to_nat (num_chords p))%nat
           (product (templates self) (Z.to_nat (num_chords p))) d.
Proof.
  unfold generate_all_enter.
  destruct (makedirs (output_dir p)) as [e|[]]; [done|].
  cbn [mbind result_bind].
  destruct (decide (num_chords p < 0)); [done|].
  cbn [mbind result_bind ret].
  destruct (decide (max_workers p ≤ 0)); [done|].
  cbn [mbind result_bind ret]. intros [= <-].
  split; [lia|]. split; [lia|]. done.
Qed.

Lemma generate_all_enter_ok self p d :
  makedirs (output_dir p) = inr () → 0 ≤ num_chords p → 0 < max_workers p →
  generate_all_enter self p d =
    inr (enter_loop p (length (templates self) ^ Z.to_nat (num_chords p))%nat
           (product (templates self) (Z.to_nat (num_chords p))) d).
Proof.
  intros Hmk Hn Hw. unfold generate_all_enter. rewrite Hmk.
  cbn [mbind result_bind].
  rewrite decide_False by lia. cbn [mbind result_bind ret].
  rewrite decide_False by lia. done.
Qed.

Lemma generate_all_inr self kw d schedule st :
  generate_all self kw d schedule = Some (inr st) →
  ∃ st0, generate_all_enter self (bind_parameters kw) d = inr st0
    ∧ run st0 schedule = Some st.
Proof.
  unfold generate_all.
  destruct (generate_all_enter self (bind_parameters kw) d) as [e|st0]; [done|].
  destruct (run st0 schedule) as [st1|] eqn:Hrun; [|done].
  intros [= <-]. by exists st0.
Qed.

Lemma generate_all_inv self kw d schedule st :
  generate_all self kw d schedule = Some (inr st) →
  0 ≤ num_chords (bind_parameters kw)
  ∧ inv (bind_parameters kw)
      (length (templates self) ^ Z.to_nat (num_chords (bind_parameters kw)))%nat
      (product (templates self) (Z.to_nat (num_chords (bind_parameters kw)))) st.
Proof.
  intros Hgen. apply generate_all_inr in Hgen as (st0 & Henter & Hrun).
  apply generate_all_enter_inr in Henter as (Hn & _ & _ & ->).
  split; [done|]. eapply inv_run; [|done]. apply inv_enter_loop.
Qed.

Lemma step_pbar st ev st' :
  step st ev = Some st' →
  pbar st' = match ev with Completed _ => S (pbar st) | _ => pbar st end.
Proof.
  destruct ev as [|f|f]; simpl.
  - destruct (at_ st); try done.
    + intros [= <-]. unfold for_turn.
      destruct (all_combinations st); [done|]. by case_decide.
    + case_decide; [|done]. by intros [= <-].
    + case_decide; [|done]. by intros [= <-].
  - destruct (at_ st); try done.
    + destruct (_ && _); [|done]. intros [= <-]. unfold batch_drain_body.
      by destruct (list_remove f (futures st)).
    + destruct (_ && _); [|done]. by intros [= <-].
  - destruct (executor st !! f) as [t|]; [|done]. case_decide; [|done].
    intros [= <-]. unfold run_task. by destruct (_save_single _ _ _).
Qed.

Lemma step_submits st ev st' :
  step st ev = Some st' → length (executor st') ≠ length (executor st) →
  ev = Coordinator ∧ at_ st = AtFor.
Proof.
  destruct ev as [|f|f]; simpl.
  - destruct (at_ st); try done.
    + case_decide; [|done]. by intros [= <-].
    + case_decide; [|done]. by intros [= <-].
  - destruct (at_ st); try done.
    + destruct (_ && _); [|done]. intros [= <-]. unfold batch_drain_body.
      by destruct (list_remove f (futures st)).
    + destruct (_ && _); [|done]. by intros [= <-].
  - destruct (executor st !! f) as [t|]; [|done]. case_decide; [|done].
    intros [= <-]. unfold run_task. destruct (_save_single _ _ _). simpl.
    by rewrite length_insert.
Qed.

(** *** What one move can do to the pool and to the disk *)

Lemma step_inversion st ev st' :
  step st ev = Some st' →
  params st' = params st ∧ total st' = total st ∧
  ((executor st' = executor st ∧ files st' = files st)
   ∨ (∃ combo, executor st' = executor st ++
         [{| t_progression := combo; t_output_dir := output_dir (params st);
             t_result := None |}]
       ∧ files st' = files st)
   ∨ (∃ f t, ev = Worker f ∧ executor st !! f = Some t ∧ pending t
       ∧ executor st' =
           <[f := {| t_progression := t_progression t;
                     t_output_dir := t_output_dir t;
                     t_result := Some (_save_single (t_progression t)
                                         (t_output_dir t) (files st)).1 |}]>
             (executor st)
       ∧ files st' =
           (_save_single (t_progression t) (t_output_dir t) (files st)).2)).
Proof.
  destruct ev as [|f|f]; simpl.
  - destruct (at_ st); try done.
    + intros [= <-]. unfold for_turn.
      destruct (all_combinations st) as [|combo rest]; simpl; [by auto|].
      case_decide; simpl; [by auto|]. split; [done|]. split; [done|].
      right; left. by exists combo.
    + case_decide; [|done]. intros [= <-]. simpl. by auto.
    + case_decide; [|done]. intros [= <-]. simpl. by auto.
  - destruct (at_ st); try done.
    + destruct (_ && _); [|done]. intros [= <-]. unfold batch_drain_body.
      destruct (list_remove f (futures st)); simpl; by auto.
    + destruct (_ && _); [|done]. intros [= <-]. simpl. by auto.
  - destruct (executor st !! f) as [t|] eqn:Hf; [|done].
    case_decide as Hpend; [|done]. intros [= <-]. unfold run_task.
    destruct (_save_single (t_progression t) (t_output_dir t) (files st))
      as [ok dk] eqn:Hsave. simpl.
    split; [done|]. split; [done|]. right; right. exists f, t.
    rewrite Hsave. by split_and!.
Qed.

(** *** Carrying a run on to the return *)

Lemma generate_all_completes self kw d schedule st :
  generate_all self kw d schedule = Some (inr st) →
  ∃ more st_end,
    generate_all self kw d (schedule ++ more) = Some (inr st_end)
    ∧ at_ st_end = Returned RNone.
Proof.
  intros Hgen. pose proof Hgen as Hinv.
  apply generate_all_inv in Hinv as [_ Hinv].
  destruct (inv_completes _ _ _ _ Hinv) as (more & st_end & Hmore & Hret).
  exists more, st_end. split; [|exact Hret].
  apply generate_all_inr in Hgen as (st0 & Henter & Hrun).
  unfold generate_all. rewrite Henter, run_app, Hrun. simpl. by rewrite Hmore.
Qed.

(** What holds of a call that has returned. *)
Lemma generate_all_returned self kw d schedule st v :
  generate_all self kw d schedule = Some (inr st) → at_ st = Returned v →
  let K := length (templates self) in
  let n := Z.to_nat (num_chords (bind_parameters kw)) in
  v = RNone
  ∧ total st = (K ^ n)%nat
  ∧ pbar st = total st
  ∧ length (executor st) = total st
  ∧ t_progression <$> executor st = product (templates self) n
  ∧ ∀ f t, executor st !! f = Some t → ∃ ok, t_result t = Some ok.
Proof.
  intros Hgen Hv K n. apply generate_all_inv in Hgen as [_ Hinv].
  fold K n in Hinv.
  pose proof (inv_at _ _ _ _ Hinv) as Hloc. rewrite Hv in Hloc.
  destruct Hloc as (-> & _ & Hpbar & Hfl & Hmin & _).
  unfold progression in Hmin. rewrite length_product in Hmin. fold K in Hmin.
  pose proof (inv_i _ _ _ _ Hinv) as Hi.
  pose proof (inv_submitted _ _ _ _ Hinv) as Hsub.
  rewrite (inv_total _ _ _ _ Hinv).
  assert (Hlen : length (executor st) = (K ^ n)%nat) by lia.
  split; [done|]. split; [done|]. split; [lia|]. split; [done|]. split.
  - rewrite Hsub, Hi, Hlen. apply take_ge. unfold progression.
    by rewrite length_product.
  - intros f t Hf. unfold in_flight in Hfl.
    rewrite filter_pending_nil_iff in Hfl.
    specialize (Hfl f t Hf). unfold pending in Hfl.
    destruct (t_result t) as [ok|]; [by exists ok|done].
Qed.

(** *** The unit of work *)

Lemma get_chord_name_raises (notes : list Z) :
  notes = [] ∨ (∃ root e, py_min notes = inr root ∧ pitch_name root = inl e) →
  ∃ e, _get_chord_name notes = inl e.
Proof.
  intros [->|(root & e & Hmin & Hname)]; [by exists ValueError|].
  exists e. unfold _get_chord_name. rewrite Hmin. simpl. by rewrite Hname.
Qed.

Lemma save_single_unnamed progression dir dk c e :
  c ∈ progression → _get_chord_name c = inl e →
  _save_single progression dir dk = (false, dk).
Proof.
  intros Hin Hc. unfold _save_single, _save_single_try.
  by destruct (comprehension_inl _ _ _ _ Hin Hc) as [e' ->].
Qed.

Lemma save_single_fst progression dir dk :
  (_save_single progression dir dk).1 = true ↔
  ∃ names,
    Forall2 (λ c n, _get_chord_name c = inr n) progression names
    ∧ midi_write progression
        (os_path_join dir (join "-" names +:+ ".mid")) dk = inr ().
Proof.
  unfold _save_single, _save_single_try.
  destruct (comprehension _get_chord_name progression) as [e|names] eqn:Hc;
    simpl.
  - split; [done|]. intros (names & Hall & _).
    apply comprehension_Forall2 in Hall. congruence.
  - destruct (midi_write progression
                (os_path_join dir (join "-" names +:+ ".mid")) dk)
      as [e|[]] eqn:Hw; simpl.
    + split; [done|]. intros (names' & Hall & Hw').
      apply comprehension_Forall2 in Hall. congruence.
    + split; [|done]. intros _. exists names.
      by apply comprehension_Forall2 in Hc.
Qed.

(** The empty progression: no chord to name, the file name is the bare
    extension. *)
Lemma save_single_nil out dk :
  _save_single [] out dk =
    match midi_write [] (os_path_join out ".mid") dk with
    | inr _ => (true, <[os_path_join out ".mid" := []]> dk)
    | inl _ => (false, dk)
    end.
Proof.
  unfold _save_single, _save_single_try. simpl.
  change (os_path_join out ("" +:+ ".mid")) with (os_path_join out ".mid").
  by destruct (midi_write [] (os_path_join out ".mid") dk) as [e|[]].
Qed.

(** *** The run over the single empty progression *)

Lemma zero_chords_step p d st ev st' :
  inv p 1 [[]] st → step st ev = Some st' →
  let unit_done :=
    {| t_progression := []; t_output_dir := output_dir p;
       t_result := Some (_save_single [] (output_dir p) d).1 |} in
  (files st = d ∧ (∀ f t, executor st !! f = Some t → pending t))
  ∨ (executor st = [unit_done]
     ∧ files st = (_save_single [] (output_dir p) d).2) →
  (files st' = d ∧ (∀ f t, executor st' !! f = Some t → pending t))
  ∨ (executor st' = [unit_done]
     ∧ files st' = (_save_single [] (output_dir p) d).2).
Proof.
  intros Hinv Hstep unit_done Hz.
  pose proof (inv_step _ _ _ _ _ _ Hinv Hstep) as Hinv'.
  destruct (step_inversion _ _ _ Hstep)
    as (_ & _ & [[Hex Hfiles]|[(combo & Hex & Hfiles)|Hw]]).
  - rewrite Hex, Hfiles. exact Hz.
  - destruct Hz as [[Hd Hp]|[Hex0 _]].
    + left. split; [congruence|]. intros g tg. rewrite Hex. intros Hg.
      apply lookup_app_Some in Hg as [Hg|[_ Hg]]; [by eapply Hp|].
      by apply list_lookup_singleton_Some in Hg as [_ <-].
    + exfalso. pose proof (inv_i _ _ _ _ Hinv') as Hi.
      pose proof (inv_i_le _ _ _ _ Hinv') as Hile.
      rewrite Hex, Hex0 in Hi. simpl in Hi. lia.
  - destruct Hw as (f & t & _ & Hf & Hpend & Hex & Hfiles).
    destruct Hz as [[Hd Hp]|[Hex0 _]].
    + right. pose proof (inv_i _ _ _ _ Hinv) as Hi.
      pose proof (inv_i_le _ _ _ _ Hinv) as Hile.
      pose proof (inv_submitted _ _ _ _ Hinv) as Hsub.
      pose proof (inv_dirs _ _ _ _ Hinv _ _ Hf) as Hdir.
      pose proof (lookup_lt_Some _ _ _ Hf) as Hlt.
      destruct (executor st) as [|t0 [|t1 ts]] eqn:Hexec;
        simpl in Hi, Hlt; [lia| |lia].
      assert (f = 0%nat) as -> by lia. injection Hf as ->.
      rewrite Hi in Hsub. injection Hsub as Hprog.
      rewrite Hex, Hfiles, Hprog, Hdir, Hd. done.
    + exfalso. rewrite Hex0 in Hf.
      apply list_lookup_singleton_Some in Hf as [_ <-]. done.
Qed.

Lemma zero_chords_run p d st evs st' :
  inv p 1 [[]] st → run st evs = Some st' →
  let unit_done :=
    {| t_progression := []; t_output_dir := output_dir p;
       t_result := Some (_save_single [] (output_dir p) d).1 |} in
  (files st = d ∧ (∀ f t, executor st !! f = Some t → pending t))
  ∨ (executor st = [unit_done]
     ∧ files st = (_save_single [] (output_dir p) d).2) →
  (files st' = d ∧ (∀ f t, executor st' !! f = Some t → pending t))
  ∨ (executor st' = [unit_done]
     ∧ files st' = (_save_single [] (output_dir p) d).2).
Proof.
  intros Hinv Hrun unit_done. revert st Hinv Hrun.
  induction evs as [|ev evs IH]; intros st Hinv; simpl.
  - by intros [= <-].
  - destruct (step st ev) as [st1|] eqn:Hstep; simpl; [|done].
    intros Hrun Hz. apply (IH st1); [by eapply inv_step|done|].
    by eapply zero_chords_step.
Qed.

(** A call with [num_chords = 0] that has returned: its one unit ran on the
    disk the call found. *)
Lemma zero_chords_returned self kw d schedule st v :
  num_chords (bind_parameters kw) = 0 →
  generate_all self kw d schedule = Some (inr st) → at_ st = Returned v →
  executor st =
    [{| t_progression := []; t_output_dir := output_dir (bind_parameters kw);
        t_result :=
          Some (_save_single [] (output_dir (bind_parameters kw)) d).1 |}]
  ∧ files st = (_save_single [] (output_dir (bind_parameters kw)) d).2.
Proof.
  intros Hn Hgen Hv.
  destruct (generate_all_returned _ _ _ _ _ _ Hgen Hv)
    as (_ & _ & _ & Hlen & _ & Hres).
  pose proof Hgen as Hinv. apply generate_all_inv in Hinv as [_ Hinv].
  rewrite (inv_total _ _ _ _ Hinv), Hn in Hlen. simpl in Hlen.
  apply generate_all_inr in Hgen as (st0 & Henter & Hrun).
  apply generate_all_enter_inr in Henter as (_ & _ & _ & ->).
  rewrite Hn in Hrun. simpl in Hrun.
  eapply zero_chords_run in Hrun as [[_ Hp]|Hdone].
  - destruct (executor st) as [|t ts] eqn:Hex; [done|].
    destruct (Hres 0%nat t eq_refl) as [ok Hok].
    specialize (Hp 0%nat t eq_refl). unfold pending in Hp. congruence.
  - exact Hdone.
  - apply inv_enter_loop.
  - left. by split.
Qed.

(** ** The submission loop *)

(** C1: at every point of every run of [generate_all] the unresolved work
    units are among the tracked futures, and these are never more than
    [batch_size]; when the tracked futures reach [batch_size] the
    coordinating thread is in the batch drain, which it leaves only once
    every one of them has been handed back; a unit is submitted only below
    the cap; the progress count moves by one exactly on each future handed
    back, and only resolved futures are handed back; at the return nothing
    is unresolved and the progress count is the number of units submitted.
    Every run can be carried on to the return, and no schedule from a state
    is longer than [moves_left] of it. *)
Theorem generate_all_in_flight_bounded self kw d schedule st :
  generate_all self kw d schedule = Some (inr st) →
  (in_flight st ≤ length (futures st))%nat
  ∧ (length (futures st) ≤ batch_size)%nat
  ∧ ((batch_size ≤ length (futures st))%nat →
     at_ st = InBatchDrain (list_to_set (futures st)))
  ∧ (∀ ev st', step st ev = Some st' →
       (length (executor st') ≠ length (executor st) →
        (length (futures st) < batch_size)%nat)
       ∧ (∀ waiting, at_ st = InBatchDrain waiting → ev = Coordinator →
          futures st' = [] ∧ in_flight st' = 0%nat)
       ∧ (∀ f, ev = Completed f → resolved st f = true)
       ∧ pbar st' = match ev with Completed _ => S (pbar st) | _ => pbar st end)
  ∧ (∀ v, at_ st = Returned v →
       in_flight st = 0%nat ∧ pbar st = length (executor st))
  ∧ (∃ more st_end, run st more = Some st_end ∧ at_ st_end = Returned RNone)
  ∧ (∀ more st', run st more = Some st' → (length more ≤ moves_left st)%nat).
Proof.
  intros Hgen. apply generate_all_inv in Hgen as [_ Hinv].
  pose proof (inv_at _ _ _ _ Hinv) as Hloc.
  pose proof (inv_in_flight _ _ _ _ Hinv) as Hfl.
  pose proof (inv_batch _ _ _ _ Hinv) as Hb.
  split; [done|]. split; [done|]. split; [|split; [|split; [|split]]].
  - intros Hfull. destruct (at_ st); try done; try (exfalso; lia).
    by destruct Hloc as [-> _].
  - intros ev st' Hstep. split; [|split; [|split]].
    + intros Hsub. apply (step_submits _ _ _ Hstep) in Hsub as [_ Hat].
      rewrite Hat in Hloc. apply Hloc.
    + intros waiting Hat ->. simpl in Hstep. rewrite Hat in Hstep.
      case_decide as Hw; [|done]. injection Hstep as <-.
      rewrite Hat in Hloc. destruct Hloc as (Hset & _). rewrite Hw in Hset.
      unfold in_flight in *. simpl.
      destruct (futures st) as [|f fs]; [simpl in Hfl; split; [done|lia]|].
      exfalso. apply (not_elem_of_empty (C := gset nat) f). rewrite Hset.
      set_solver.
    + intros f ->. simpl in Hstep. destruct (resolved st f); [done|].
      exfalso. destruct (at_ st); try done; by rewrite andb_false_r in Hstep.
    + by apply step_pbar.
  - intros v Hv. rewrite Hv in Hloc. by destruct Hloc as (_ & _ & ? & ? & _).
  - by eapply inv_completes.
  - intros more st' Hrun.
    pose proof (run_moves_left _ _ _ _ _ _ Hinv Hrun). lia.
Qed.

(** C2: for [num_chords >= 1] the total is the integer power
    [len(templates) ** num_chords]; the units submitted so far are the
    first ones of the product, in its order, and never more than the total;
    at the return they are exactly the product, so exactly [total] units,
    which for [num_chords = 1] is the size of the catalog; and every run
    can be carried on to a return, where exactly [total] units have been
    submitted.  The cap holds for any iterator: entered with a total and an
    iterator of any length, the loop submits at most the total, and it can
    be run to its return, where it has submitted the smaller of the two. *)
Theorem generate_all_submits_total self kw d schedule st :
  1 ≤ num_chords (bind_parameters kw) →
  generate_all self kw d schedule = Some (inr st) →
  let K := length (templates self) in
  let n := Z.to_nat (num_chords (bind_parameters kw)) in
  total st = (K ^ n)%nat
  ∧ (length (executor st) ≤ total st)%nat
  ∧ t_progression <$> executor st =
      take (length (executor st)) (product (templates self) n)
  ∧ (∀ v, at_ st = Returned v →
       length (executor st) = total st
       ∧ t_progression <$> executor st = product (templates self) n
       ∧ (num_chords (bind_parameters kw) = 1 → length (executor st) = K))
  ∧ (∃ more st_end,
       generate_all self kw d (schedule ++ more) = Some (inr st_end)
       ∧ at_ st_end = Returned RNone
       ∧ total st_end = (K ^ n)%nat
       ∧ length (executor st_end) = (K ^ n)%nat
       ∧ t_progression <$> executor st_end = product (templates self) n
       ∧ (num_chords (bind_parameters kw) = 1 →
          length (executor st_end) = K))
  ∧ (∀ p total0 combos0 d0,
       (∀ evs st',
          run (enter_loop p total0 combos0 d0) evs = Some st' →
          (length (executor st') ≤ total0)%nat
          ∧ (∀ v, at_ st' = Returned v →
               length (executor st') = (length combos0 `min` total0)%nat))
       ∧ ∃ evs st',
           run (enter_loop p total0 combos0 d0) evs = Some st'
           ∧ at_ st' = Returned RNone
           ∧ length (executor st') = (length combos0 `min` total0)%nat).
Proof.
  intros Hn Hgen K n.
  assert (Hone : num_chords (bind_parameters kw) = 1 → (K ^ n)%nat = K).
  { intros H1. unfold n. rewrite H1. simpl. lia. }
  assert (Hcap : ∀ p total0 combos0 d0 evs st',
    run (enter_loop p total0 combos0 d0) evs = Some st' →
    (length (executor st') ≤ total0)%nat
    ∧ (∀ v, at_ st' = Returned v →
         length (executor st') = (length combos0 `min` total0)%nat)).
  { intros p total0 combos0 d0 evs st' Hrun.
    assert (Hinv' : inv p total0 combos0 st').
    { eapply inv_run; [|done]. apply inv_enter_loop. }
    pose proof (inv_i _ _ _ _ Hinv') as Hi'.
    pose proof (inv_i_le _ _ _ _ Hinv') as Hile'.
    split; [lia|]. intros v Hv.
    pose proof (inv_at _ _ _ _ Hinv') as Hloc'. rewrite Hv in Hloc'.
    destruct Hloc' as (_ & _ & _ & _ & Hmin & _). lia. }
  pose proof Hgen as Hinv. apply generate_all_inv in Hinv as [_ Hinv].
  fold K n in Hinv.
  pose proof (inv_i _ _ _ _ Hinv) as Hi.
  pose proof (inv_i_le _ _ _ _ Hinv) as Hile.
  pose proof (inv_submitted _ _ _ _ Hinv) as Hsub.
  pose proof (inv_total _ _ _ _ Hinv) as Htot.
  split; [done|]. split; [lia|]. split; [by rewrite <- Hi|].
  split; [|split].
  - intros v Hv.
    destruct (generate_all_returned _ _ _ _ _ _ Hgen Hv)
      as (_ & _ & _ & Hlen & Hprod & _).
    split; [done|]. split; [done|]. intros H1. rewrite Hlen, Htot. by apply Hone.
  - destruct (generate_all_completes _ _ _ _ _ Hgen)
      as (more & st_end & Hgen' & Hret).
    destruct (generate_all_returned _ _ _ _ _ _ Hgen' Hret)
      as (_ & Htot' & _ & Hlen & Hprod & _).
    exists more, st_end. fold K n in Htot'.
    split; [done|]. split; [done|]. split; [done|].
    split; [by rewrite Hlen|]. split; [done|].
    intros H1. rewrite Hlen, Htot'. by apply Hone.
  - intros p total0 combos0 d0. split; [by apply Hcap|].
    destruct (inv_completes p total0 combos0 (enter_loop p total0 combos0 d0))
      as (evs & st' & Hrun & Hret); [apply inv_enter_loop|].
    exists evs, st'. split; [done|]. split; [done|].
    by eapply (proj2 (Hcap _ _ _ _ _ _ Hrun)).
Qed.

(** C3: [_save_single] returns a boolean whatever the collaborators do:
    [False], with nothing written, when a chord of the progression has no
    note or the naming utility raises on the lowest note of one; [False]
    when every chord is named and building or writing the stream raises;
    [True] exactly when every chord is named and the write does not raise.
    In a run of [generate_all] the coordinating thread never ends in an
    exception; a submitted unit that has not run can always be run, and the
    worker's move resolves its own future with that boolean and touches no
    other work item, nor the list of futures, nor the progress count; at
    the return the progress count is the total, all units submitted and
    resolved, failed ones included; and every run can be carried on to such
    a return, whatever the units have resolved to. *)
Theorem save_single_failure_isolated self kw d schedule st :
  generate_all self kw d schedule = Some (inr st) →
  (∀ progression dir dk c,
     c ∈ progression →
     c = [] ∨ (∃ root e, py_min c = inr root ∧ pitch_name root = inl e) →
     _save_single progression dir dk = (false, dk))
  ∧ (∀ progression dir dk names e,
       Forall2 (λ c n, _get_chord_name c = inr n) progression names →
       midi_write progression
         (os_path_join dir (join "-" names +:+ ".mid")) dk = inl e →
       (_save_single progression dir dk).1 = false)
  ∧ (∀ progression dir dk,
       (_save_single progression dir dk).1 = true ↔
       ∃ names,
         Forall2 (λ c n, _get_chord_name c = inr n) progression names
         ∧ midi_write progression
             (os_path_join dir (join "-" names +:+ ".mid")) dk = inr ())
  ∧ (∀ e, at_ st ≠ Raised e)
  ∧ (∀ f t, executor st !! f = Some t → pending t →
       is_Some (step st (Worker f)))
  ∧ (∀ f st', step st (Worker f) = Some st' →
       ∃ t, executor st !! f = Some t ∧ pending t
         ∧ executor st' !! f =
             Some {| t_progression := t_progression t;
                     t_output_dir := t_output_dir t;
                     t_result :=
                       Some (_save_single (t_progression t) (t_output_dir t)
                               (files st)).1 |}
         ∧ (∀ g, g ≠ f → executor st' !! g = executor st !! g)
         ∧ at_ st' = at_ st ∧ futures st' = futures st ∧ pbar st' = pbar st)
  ∧ (∀ v, at_ st = Returned v →
       pbar st = total st ∧ length (executor st) = total st
       ∧ ∀ f t, executor st !! f = Some t → ∃ ok, t_result t = Some ok)
  ∧ (∃ more st_end,
       generate_all self kw d (schedule ++ more) = Some (inr st_end)
       ∧ at_ st_end = Returned RNone
       ∧ pbar st_end = total st_end
       ∧ length (executor st_end) = total st_end
       ∧ ∀ f t, executor st_end !! f = Some t → ∃ ok, t_result t = Some ok).
Proof.
  intros Hgen. pose proof Hgen as Hinv.
  apply generate_all_inv in Hinv as [_ Hinv].
  pose proof (inv_at _ _ _ _ Hinv) as Hloc.
  split; [|split; [|split; [|split; [|split; [|split; [|split]]]]]].
  - intros progression dir dk c Hin Hc.
    apply get_chord_name_raises in Hc as [e He].
    by eapply save_single_unnamed.
  - intros progression dir dk names e Hall Hw.
    destruct (_save_single progression dir dk).1 eqn:Hok; [|done].
    apply save_single_fst in Hok as (names' & Hall' & Hw').
    apply comprehension_Forall2 in Hall, Hall'. congruence.
  - apply save_single_fst.
  - intros e He. by rewrite He in Hloc.
  - intros f t Hf Hpend. simpl. rewrite Hf. by rewrite decide_True.
  - intros f st' Hstep. simpl in Hstep.
    destruct (executor st !! f) as [t|] eqn:Hf; [|done].
    case_decide as Hpend; [|done]. injection Hstep as <-.
    exists t. split; [done|]. split; [done|]. unfold run_task.
    destruct (_save_single _ _ _) as [ok dk]. simpl.
    split; [apply list_lookup_insert_eq; by eapply lookup_lt_Some|].
    split; [|done]. intros g Hg. by apply list_lookup_insert_ne.
  - intros v Hv.
    destruct (generate_all_returned _ _ _ _ _ _ Hgen Hv)
      as (_ & _ & Hp & Hlen & _ & Hres).
    done.
  - destruct (generate_all_completes _ _ _ _ _ Hgen)
      as (more & st_end & Hgen' & Hret).
    destruct (generate_all_returned _ _ _ _ _ _ Hgen' Hret)
      as (_ & _ & Hp & Hlen & _ & Hres).
    by exists more, st_end.
Qed.

(** C6 (as the code has it): a call that gets past its set-up can be
    scheduled to its return; and whenever [generate_all] returns, it returns
    [None]: the total is in the one line it has printed, together with the
    output directory, and the count of processed units, equal to the total,
    is in the progress bar only. *)
Theorem generate_all_returns_none self kw d :
  (makedirs (output_dir (bind_parameters kw)) = inr () →
   0 ≤ num_chords (bind_parameters kw) →
   0 < max_workers (bind_parameters kw) →
   ∃ schedule st,
     generate_all self kw d schedule = Some (inr st) ∧ at_ st = Returned RNone)
  ∧ ∀ schedule st v,
      generate_all self kw d schedule = Some (inr st) → at_ st = Returned v →
      v = RNone
      ∧ stdout st = [summary_line (total st) (output_dir (bind_parameters kw))]
      ∧ pbar st = total st.
Proof.
  split.
  - intros Hmk Hn Hw. unfold generate_all.
    rewrite generate_all_enter_ok by done.
    edestruct inv_completes as (evs & st & Hrun & Hret); [apply inv_enter_loop|].
    exists evs, st. by rewrite Hrun.
  - intros schedule st v Hgen Hv. apply generate_all_inv in Hgen as [_ Hinv].
    pose proof (inv_at _ _ _ _ Hinv) as Hloc. rewrite Hv in Hloc.
    destruct Hloc as (-> & _ & Hpbar & _ & Hmin & Hout).
    unfold progression in Hmin. rewrite length_product in Hmin.
    rewrite (inv_total _ _ _ _ Hinv), Hpbar, <- (inv_i _ _ _ _ Hinv).
    split; [done|]. split; [done|]. lia.
Qed.

(** C7 (as the code has it): [generate_all] has three optional parameters,
    [num_chords] with default 4, [output_dir] with default "chord_output"
    and [max_workers] with default 8, each overridden by the argument
    given; the in-flight cap is the constant 1000 whatever the arguments,
    and every state of a run carries the bound parameters and at most 1000
    tracked futures.  The script's entry point passes 4,
    "chord_progressions" and 8 itself. *)
Theorem generate_all_defaults :
  bind_parameters no_keywords =
    {| num_chords := 4; output_dir := "chord_output"; max_workers := 8 |}
  ∧ (∀ n o w,
       bind_parameters
         {| kw_num_chords := Some n; kw_output_dir := Some o;
            kw_max_workers := Some w |} =
         {| num_chords := n; output_dir := o; max_workers := w |})
  ∧ batch_size = 1000%nat
  ∧ (∀ self kw d schedule st,
       generate_all self kw d schedule = Some (inr st) →
       params st = bind_parameters kw ∧ (length (futures st) ≤ 1000)%nat)
  ∧ ∀ d schedule st,
      __main__ d schedule = Some (inr st) →
      params st =
        {| num_chords := 4; output_dir := "chord_progressions";
           max_workers := 8 |}.
Proof.
  split; [done|]. split; [done|]. split; [done|]. split.
  - intros self kw d schedule st Hgen.
    apply generate_all_inv in Hgen as [_ Hinv].
    split; [apply Hinv|]. apply (inv_batch _ _ _ _ Hinv).
  - intros d schedule st Hgen. unfold __main__ in Hgen.
    apply generate_all_inv in Hgen as [_ Hinv]. apply Hinv.
Qed.

(** C8 (as the code has it): the catalog of [__init__] has 24 templates,
    twelve roots in two qualities, and a run over four-chord progressions
    has the total [24 ** 4 = 331776]. *)
Theorem templates_count_and_total kw d schedule st :
  num_chords (bind_parameters kw) = 4 →
  generate_all __init__ kw d schedule = Some (inr st) →
  length (templates __init__) = 24%nat ∧ Z.of_nat (total st) = 331776.
Proof.
  intros Hn Hgen. apply generate_all_inv in Hgen as [_ Hinv].
  split; [done|]. rewrite (inv_total _ _ _ _ Hinv), Hn.
  change (length (templates __init__)) with 24%nat.
  rewrite Nat2Z.inj_pow. done.
Qed.

(** C10: with [num_chords = 0] the total is 1; the only unit ever submitted
    is the empty progression for the output directory; at the return
    exactly that one unit has been submitted and has run, on the disk the
    call found; and every run can be carried on to such a return.  The
    unit's [try] block names no chord, so the file name is ".mid" and the
    write goes to [os.path.join(output_dir, ".mid")]: the unit succeeds
    exactly when that write does, and then that path holds the empty
    progression, on the disk of the returned call too. *)
Theorem generate_all_zero_chords self kw d schedule st :
  num_chords (bind_parameters kw) = 0 →
  generate_all self kw d schedule = Some (inr st) →
  let out := output_dir (bind_parameters kw) in
  let fp := os_path_join out ".mid" in
  let unit_done :=
    {| t_progression := []; t_output_dir := out;
       t_result := Some (_save_single [] out d).1 |} in
  total st = 1%nat
  ∧ (∀ f t, executor st !! f = Some t →
       f = 0%nat ∧ t_progression t = [] ∧ t_output_dir t = out)
  ∧ (∀ v, at_ st = Returned v →
       executor st = [unit_done]
       ∧ (midi_write [] fp d = inr () → files st = <[fp := []]> d))
  ∧ (∃ more st_end,
       generate_all self kw d (schedule ++ more) = Some (inr st_end)
       ∧ at_ st_end = Returned RNone
       ∧ total st_end = 1%nat
       ∧ executor st_end = [unit_done]
       ∧ (midi_write [] fp d = inr () → files st_end = <[fp := []]> d))
  ∧ join "-" [] +:+ ".mid" = ".mid"
  ∧ fp = (if bool_decide (out = "") || endswith out "/"
          then out +:+ ".mid" else out +:+ "/" +:+ ".mid")
  ∧ ∀ dk,
      ((_save_single [] out dk).1 = true ↔ midi_write [] fp dk = inr ())
      ∧ (midi_write [] fp dk = inr () →
         _save_single [] out dk = (true, <[fp := []]> dk)).
Proof.
  intros Hn Hgen out fp unit_done.
  assert (Hsave : ∀ dk, midi_write [] fp dk = inr () →
    _save_single [] out dk = (true, <[fp := []]> dk)).
  { intros dk Hw. rewrite save_single_nil. fold fp. by rewrite Hw. }
  assert (Hret : ∀ sched s v,
    generate_all self kw d sched = Some (inr s) → at_ s = Returned v →
    executor s = [unit_done]
    ∧ (midi_write [] fp d = inr () → files s = <[fp := []]> d)).
  { intros sched s v Hs Hv.
    destruct (zero_chords_returned _ _ _ _ _ _ Hn Hs Hv) as [Hex Hfiles].
    split; [done|]. intros Hw. fold out in Hfiles.
    by rewrite Hfiles, (Hsave _ Hw). }
  pose proof Hgen as Hinv. apply generate_all_inv in Hinv as [_ Hinv].
  rewrite Hn in Hinv. simpl in Hinv.
  pose proof (inv_i _ _ _ _ Hinv) as Hi.
  pose proof (inv_i_le _ _ _ _ Hinv) as Hile.
  pose proof (inv_submitted _ _ _ _ Hinv) as Hsub.
  split; [apply Hinv|]. split; [|split; [|split; [|split; [done|split; [done|]]]]].
  - intros f t Hf. pose proof (lookup_lt_Some _ _ _ Hf) as Hlt.
    assert (f = 0%nat) as -> by lia. split; [done|].
    split; [|by eapply (inv_dirs _ _ _ _ Hinv)].
    assert (Hf' : (t_progression <$> executor st) !! 0%nat = Some (t_progression t))
      by by rewrite list_lookup_fmap, Hf.
    rewrite Hsub in Hf'. apply lookup_take_Some in Hf' as [Hf' _].
    by injection Hf'.
  - intros v Hv. by eapply Hret.
  - destruct (generate_all_completes _ _ _ _ _ Hgen)
      as (more & st_end & Hgen' & Hend).
    exists more, st_end. split; [done|]. split; [done|].
    split; [|by eapply Hret].
    apply generate_all_inv in Hgen' as [_ Hinv'].
    rewrite (inv_total _ _ _ _ Hinv'), Hn. done.
  - intros dk. split; [|by apply Hsave].
    rewrite save_single_nil. fold fp.
    by destruct (midi_write [] fp dk) as [e|[]].
Qed.

End dispatcher.

(** ** The theorems at concrete runs *)

Lemma total_enter_loop p total0 combos0 d :
  total (enter_loop p total0 combos0 d) = total0.
Proof. done. Qed.

Example run_midway :
  observe (generate_all (H := reliable) __init__ one_chord ∅ schedule_midway)
  = Some (24, 21, 24, 0)%nat.
Proof. vm_compute. reflexivity. Qed.

Example run_one_chord :
  observe (generate_all (H := reliable) __init__ one_chord ∅ schedule_one_chord)
  = Some (24, 0, 24, 24)%nat.
Proof. vm_compute. reflexivity. Qed.

Example run_one_chord_read_only :
  observe (generate_all (H := read_only) __init__ one_chord ∅ schedule_one_chord)
  = Some (24, 0, 24, 24)%nat
  ∧ outcomes (generate_all (H := read_only) __init__ one_chord ∅ schedule_one_chord)
    = Some (replicate 24 (Some false)).
Proof. split; vm_compute; reflexivity. Qed.

Example returned_one_chord :
  returned (generate_all (H := reliable) __init__ one_chord ∅ schedule_one_chord)
  = Some RNone.
Proof. vm_compute. reflexivity. Qed.

Example returned_one_chord_read_only :
  returned (generate_all (H := read_only) __init__ one_chord ∅ schedule_one_chord)
  = Some RNone.
Proof. vm_compute. reflexivity. Qed.

Lemma generate_all_in_flight_bounded_witness :
  ∃ st,
    generate_all (H := reliable) __init__ one_chord ∅ schedule_midway
      = Some (inr st)
    ∧ (in_flight st ≤ length (futures st))%nat
    ∧ (length (futures st) ≤ batch_size)%nat.
Proof.
  destruct (generate_all (H := reliable) __init__ one_chord ∅ schedule_midway)
    as [[e|st]|] eqn:Hgen; [by vm_compute in Hgen| |by vm_compute in Hgen].
  exists st. split; [done|].
  destruct (generate_all_in_flight_bounded (H := reliable) _ _ _ _ _ Hgen)
    as (Hfl & Hb & _).
  split; [exact Hfl|exact Hb].
Defined.

Lemma generate_all_submits_total_witness :
  1 ≤ num_chords (bind_parameters one_chord)
  ∧ ∃ st,
      generate_all (H := reliable) __init__ one_chord ∅ schedule_one_chord
        = Some (inr st)
      ∧ at_ st = Returned RNone
      ∧ total st = 24%nat
      ∧ length (executor st) = 24%nat
      ∧ t_progression <$> executor st = product (templates __init__) 1.
Proof.
  assert (Hn : 1 ≤ num_chords (bind_parameters one_chord)) by (simpl; lia).
  split; [exact Hn|].
  pose proof returned_one_chord as Hret.
  destruct (generate_all (H := reliable) __init__ one_chord ∅ schedule_one_chord)
    as [[e|st]|] eqn:Hgen; [discriminate Hret| |discriminate Hret].
  exists st. split; [reflexivity|]. simpl in Hret.
  destruct (at_ st) as [| | |v|] eqn:Hat; try discriminate Hret.
  injection Hret as ->. split; [reflexivity|].
  pose proof (generate_all_submits_total (H := reliable) _ _ _ _ _ Hn Hgen)
    as Hthm.
  cbv zeta in Hthm. destruct Hthm as (Htot & _ & _ & Hend & _).
  destruct (Hend _ Hat) as (_ & Hprod & HK).
  split; [exact Htot|]. split; [exact (HK eq_refl)|exact Hprod].
Defined.

Lemma save_single_failure_isolated_witness :
  ∃ st,
    generate_all (H := read_only) __init__ one_chord ∅ schedule_one_chord
      = Some (inr st)
    ∧ at_ st = Returned RNone
    ∧ t_result <$> executor st = replicate 24 (Some false)
    ∧ length (executor st) = 24%nat
    ∧ pbar st = 24%nat
    ∧ pbar st = total st
    ∧ (_save_single (H := read_only) [[48; 52; 55]] "chord_output" ∅).1 = false.
Proof.
  pose proof returned_one_chord_read_only as Hret.
  pose proof run_one_chord_read_only as [Hobs Hout].
  destruct (generate_all (H := read_only) __init__ one_chord ∅ schedule_one_chord)
    as [[e|st]|] eqn:Hgen; [discriminate Hret| |discriminate Hret].
  exists st. split; [reflexivity|]. simpl in Hret, Hobs, Hout.
  destruct (at_ st) as [| | |v|] eqn:Hat; try discriminate Hret.
  injection Hret as ->. injection Hout as Hout.
  injection Hobs as Hlen _ _ Hpbar.
  split; [reflexivity|]. split; [exact Hout|].
  split; [exact Hlen|]. split; [exact Hpbar|].
  destruct (save_single_failure_isolated (H := read_only) _ _ _ _ _ Hgen)
    as (_ & Hwrite & _ & _ & _ & _ & Hend & _).
  split; [exact (proj1 (Hend _ Hat))|].
  apply (Hwrite [[48; 52; 55]] "chord_output" ∅ ["C_major"] OSError).
  - repeat constructor.
  - reflexivity.
Defined.

Lemma generate_all_returns_none_witness :
  makedirs (Collaborators := reliable)
    (output_dir (bind_parameters zero_chords)) = inr ()
  ∧ 0 ≤ num_chords (bind_parameters zero_chords)
  ∧ 0 < max_workers (bind_parameters zero_chords)
  ∧ (∃ schedule st,
       generate_all (H := reliable) __init__ zero_chords ∅ schedule
         = Some (inr st) ∧ at_ st = Returned RNone)
  ∧ ∃ st,
      generate_all (H := reliable) __init__ zero_chords ∅ schedule_zero_chords
        = Some (inr st)
      ∧ at_ st = Returned RNone
      ∧ pbar st = total st.
Proof.
  destruct (generate_all_returns_none (H := reliable) __init__ zero_chords ∅)
    as [Hex Hret].
  split; [reflexivity|]. split; [simpl; lia|]. split; [simpl; lia|].
  split; [apply Hex; [reflexivity|simpl; lia|simpl; lia]|].
  destruct (generate_all (H := reliable) __init__ zero_chords ∅
              schedule_zero_chords)
    as [[e|st]|] eqn:Hgen; [by vm_compute in Hgen| |by vm_compute in Hgen].
  exists st. split; [done|].
  assert (Hat : at_ st = Returned RNone).
  { vm_compute in Hgen. injection Hgen as <-. reflexivity. }
  split; [exact Hat|]. exact (proj2 (proj2 (Hret _ _ _ Hgen Hat))).
Defined.

(** C6 fails as stated: the full run over the 24 one-chord progressions
    returns [None], not a summary of any total and count. *)
Lemma generate_all_returns_no_summary :
  returned (generate_all (H := reliable) __init__ one_chord ∅ schedule_one_chord)
    = Some RNone
  ∧ ∀ total processed,
      returned (generate_all (H := reliable) __init__ one_chord ∅
                  schedule_one_chord)
      ≠ Some (RSummary total processed).
Proof.
  assert (Hret : returned (generate_all (H := reliable) __init__ one_chord ∅
                             schedule_one_chord) = Some RNone)
    by (vm_compute; reflexivity).
  split; [exact Hret|]. intros total processed. by rewrite Hret.
Qed.

Lemma generate_all_defaults_witness :
  ∃ st,
    generate_all (H := reliable) __init__ no_keywords ∅ [] = Some (inr st)
    ∧ params st = bind_parameters no_keywords
    ∧ (length (futures st) ≤ 1000)%nat.
Proof.
  assert (Hgen : generate_all (H := reliable) __init__ no_keywords ∅ []
    = Some (inr (enter_loop (bind_parameters no_keywords)
                   (length (templates __init__) ^ 4)%nat
                   (product (templates __init__) 4) ∅))).
  { unfold generate_all.
    rewrite (generate_all_enter_ok (H := reliable)); [done|done|simpl; lia..]. }
  eexists. split; [exact Hgen|].
  exact (proj1 (proj2 (proj2 (proj2 (generate_all_defaults (H := reliable)))))
           _ _ _ _ _ Hgen).
Defined.

(** C7 fails as stated: called without arguments, [generate_all] writes to
    "chord_output", not to "chord_progressions". *)
Lemma generate_all_default_output_dir :
  output_dir (bind_parameters no_keywords) = "chord_output"
  ∧ output_dir (bind_parameters no_keywords) ≠ "chord_progressions".
Proof. split; done. Qed.

Lemma templates_count_and_total_witness :
  num_chords (bind_parameters no_keywords) = 4
  ∧ ∃ st,
      generate_all (H := reliable) __init__ no_keywords ∅ [] = Some (inr st)
      ∧ length (templates __init__) = 24%nat
      ∧ Z.of_nat (total st) = 331776.
Proof.
  split; [reflexivity|].
  assert (Hgen : generate_all (H := reliable) __init__ no_keywords ∅ []
    = Some (inr (enter_loop (bind_parameters no_keywords)
                   (length (templates __init__) ^ 4)%nat
                   (product (templates __init__) 4) ∅))).
  { unfold generate_all.
    rewrite (generate_all_enter_ok (H := reliable)); [done|done|simpl; lia..]. }
  eexists. split; [exact Hgen|].
  exact (templates_count_and_total (H := reliable) no_keywords ∅ [] _
           eq_refl Hgen).
Defined.

(** C8 fails as stated: the catalog has 24 templates, not 48, and the
    default call is entered with the total 331776, not 5308416. *)
Lemma templates_not_48 :
  length (templates __init__) = 24%nat
  ∧ length (templates __init__) ≠ 48%nat
  ∧ ∃ st,
      generate_all_enter (H := reliable) __init__
        (bind_parameters no_keywords) ∅ = inr st
      ∧ Z.of_nat (total st) = 331776
      ∧ Z.of_nat (total st) ≠ 5308416.
Proof.
  split; [done|]. split; [done|].
  eexists. split.
  { rewrite (generate_all_enter_ok (H := reliable)); [done|done|simpl; lia..]. }
  rewrite total_enter_loop.
  change (length (templates __init__)) with 24%nat.
  rewrite Nat2Z.inj_pow. split; done.
Qed.

Lemma generate_all_zero_chords_witness :
  num_chords (bind_parameters zero_chords) = 0
  ∧ ∃ st,
      generate_all (H := reliable) __init__ zero_chords ∅ schedule_zero_chords
        = Some (inr st)
      ∧ at_ st = Returned RNone
      ∧ total st = 1%nat
      ∧ executor st =
          [{| t_progression := []; t_output_dir := "chord_output";
              t_result := Some true |}]
      ∧ files st = <["chord_output/.mid" := []]> ∅.
Proof.
  split; [reflexivity|].
  destruct (generate_all (H := reliable) __init__ zero_chords ∅
              schedule_zero_chords)
    as [[e|st]|] eqn:Hgen; [by vm_compute in Hgen| |by vm_compute in Hgen].
  exists st. split; [reflexivity|].
  assert (Hat : at_ st = Returned RNone).
  { vm_compute in Hgen. injection Hgen as <-. reflexivity. }
  split; [exact Hat|].
  pose proof (generate_all_zero_chords (H := reliable) __init__ zero_chords ∅
                schedule_zero_chords st eq_refl Hgen) as Hthm.
  cbv zeta in Hthm. destruct Hthm as (Htot & _ & Hend & _).
  destruct (Hend _ Hat) as [Hex Hfiles].
  split; [exact Htot|]. split; [exact Hex|]. exact (Hfiles eq_refl).
Defined.

(** * Further properties *)

(** ** Chord naming, continued *)

Lemma foldl_min_spec (n : Z) (ns : list Z) :
  (foldl Z.min n ns ∈ n :: ns) ∧ ∀ x, x ∈ n :: ns → foldl Z.min n ns ≤ x.
Proof.
  revert n. induction ns as [|y ns IH]; intros n; simpl.
  - split; [left|]. intros x Hx. apply list_elem_of_singleton in Hx. lia.
  - destruct (IH (n `min` y)) as [Hin Hle]. split.
    + apply elem_of_cons in Hin as [Heq|Hin]; [|by do 2 right].
      rewrite Heq. destruct (Z.min_spec n y) as [[_ ->]|[_ ->]];
        [left|right; left].
    + intros x Hx. apply elem_of_cons in Hx as [->|Hx].
      * etrans; [apply Hle; left|]. lia.
      * apply elem_of_cons in Hx as [->|Hx].
        -- etrans; [apply Hle; left|]. lia.
        -- apply Hle. by right.
Qed.

Lemma py_min_spec notes m :
  py_min notes = inr m ↔ m ∈ notes ∧ ∀ x, x ∈ notes → m ≤ x.
Proof.
  destruct notes as [|n ns]; simpl.
  - split; [done|]. intros [Hin _]. by apply elem_of_nil in Hin.
  - destruct (foldl_min_spec n ns) as [Hin Hle]. unfold ret. split.
    + by intros [= <-].
    + intros [Hm Hmle]. f_equal. apply Z.le_antisymm; [by apply Hle|by apply Hmle].
Qed.

Lemma py_min_Permutation notes1 notes2 :
  notes1 ≡ₚ notes2 → py_min notes1 = py_min notes2.
Proof.
  intros Hp. destruct (py_min notes1) as [e|m] eqn:H1.
  - destruct notes1; [|done]. apply Permutation_nil_l in Hp. subst notes2.
    simpl in *. done.
  - symmetry. apply py_min_spec. apply py_min_spec in H1 as [Hin Hle].
    split; [by rewrite <- Hp|]. intros x Hx. apply Hle. by rewrite Hp.
Qed.

Lemma sorted_Permutation l1 l2 : l1 ≡ₚ l2 → sorted l1 = sorted l2.
Proof.
  intros Hp. unfold sorted.
  apply (Sorted_unique Z.le); [apply Sorted_merge_sort, _..|].
  by rewrite !merge_sort_Permutation.
Qed.

Section naming_more.
Context `{Collaborators}.

(** X1: the name of a chord does not depend on the order its notes are
    given in. *)
Theorem get_chord_name_Permutation (notes1 notes2 : list Z) :
  notes1 ≡ₚ notes2 → _get_chord_name notes1 = _get_chord_name notes2.
Proof.
  intros Hp. unfold _get_chord_name. rewrite (py_min_Permutation _ _ Hp).
  destruct (py_min notes2) as [e|root]; [done|]. simpl.
  unfold intervals_from. by rewrite (sorted_Permutation _ _ (fmap_Permutation _ _ _ Hp)).
Qed.

(** X2: transposing a chord by [k] semitones moves its lowest note by [k]
    and leaves its sorted intervals, hence its chord type, as they were:
    only the pitch part of the name can change. *)
Theorem get_chord_name_transposed (notes : list Z) (k root : Z) :
  py_min notes = inr root →
  py_min ((λ n, n + k) <$> notes) = inr (root + k)
  ∧ intervals_from (root + k) ((λ n, n + k) <$> notes) = intervals_from root notes
  ∧ ∀ name name',
      pitch_name root = inr name → pitch_name (root + k) = inr name' →
      ∃ chord_type,
        _get_chord_name notes = inr (replace "-" "b" name +:+ "_" +:+ chord_type)
        ∧ _get_chord_name ((λ n, n + k) <$> notes)
          = inr (replace "-" "b" name' +:+ "_" +:+ chord_type).
Proof.
  intros Hmin.
  assert (Hmin' : py_min ((λ n, n + k) <$> notes) = inr (root + k)).
  { apply py_min_spec. apply py_min_spec in Hmin as [Hin Hle]. split.
    - by apply (list_elem_of_fmap_2 (λ n, n + k)).
    - intros x Hx. apply list_elem_of_fmap in Hx as (y & -> & Hy).
      apply Hle in Hy. lia. }
  assert (Hiv : intervals_from (root + k) ((λ n, n + k) <$> notes)
                = intervals_from root notes).
  { unfold intervals_from. f_equal. rewrite <- list_fmap_compose.
    apply list_fmap_ext. intros _ n _. simpl. lia. }
  split; [done|]. split; [done|]. intros name name' Hname Hname'.
  exists (chord_type_of (intervals_from root notes)). split.
  - by apply get_chord_name_eq.
  - rewrite <- Hiv. by apply get_chord_name_eq.
Qed.

Lemma name_of_triad (root a b : Z) (name : string) :
  0 ≤ a → 0 ≤ b → pitch_name root = inr name →
  _get_chord_name [root; root + a; root + b]
    = inr (replace "-" "b" name +:+ "_" +:+ chord_type_of (sorted [0; a; b])).
Proof.
  intros Ha Hb Hname.
  rewrite (get_chord_name_eq _ root name); [|by apply py_min_triad|done].
  by rewrite intervals_triad.
Qed.

Lemma triad_of_shape (root a b : Z) :
  (λ n, n + root) <$> [0; a; b] = [root; root + a; root + b].
Proof.
  simpl. rewrite (Z.add_comm a root), (Z.add_comm b root). by rewrite Z.add_0_l.
Qed.

(** X3: composed with the catalog: the template built on [root] from the
    major shape is named after [root] with type "major", the one built from
    the minor shape with type "minor", whatever the root. *)
Theorem get_chord_name_of_template (root : Z) (name : string) :
  pitch_name root = inr name →
  _get_chord_name ((λ n, n + root) <$> [0; 4; 7])
    = inr (replace "-" "b" name +:+ "_major")
  ∧ _get_chord_name ((λ n, n + root) <$> [0; 3; 7])
    = inr (replace "-" "b" name +:+ "_minor").
Proof.
  intros Hname. rewrite !triad_of_shape.
  split; by rewrite (name_of_triad _ _ _ name).
Qed.

End naming_more.

Lemma get_chord_name_Permutation_witness :
  [55; 48; 52] ≡ₚ [48; 52; 55]
  ∧ _get_chord_name (H := reliable) [55; 48; 52] = inr "C_major".
Proof.
  assert (Hp : [55; 48; 52] ≡ₚ [48; 52; 55]).
  { change [55; 48; 52] with ([55] ++ [48; 52]).
    change [48; 52; 55] with ([48; 52] ++ [55]). apply Permutation_app_comm. }
  split; [exact Hp|].
  rewrite (get_chord_name_Permutation (H := reliable) _ _ Hp). reflexivity.
Defined.

Lemma get_chord_name_transposed_witness :
  py_min [48; 51; 55] = inr 48
  ∧ py_min ((λ n, n + 3) <$> [48; 51; 55]) = inr (48 + 3).
Proof.
  split; [reflexivity|].
  exact (proj1 (get_chord_name_transposed (H := reliable) [48; 51; 55] 3 48 eq_refl)).
Defined.

Lemma get_chord_name_of_template_witness :
  pitch_name (Collaborators := reliable) 58 = inr "B-"
  ∧ _get_chord_name (H := reliable) ((λ n, n + 58) <$> [0; 3; 7])
    = inr "Bb_minor".
Proof.
  split; [reflexivity|].
  exact (proj2 (get_chord_name_of_template (H := reliable) 58 "B-" eq_refl)).
Defined.

(** ** The catalog and the product, continued *)

Lemma triad_inj (a b : Z) : Inj (=) (=) (λ i : Z, (λ n, n + i) <$> [0; a; b]).
Proof. intros i j Hij. simpl in Hij. injection Hij as Hij _ _. lia. Qed.

Lemma catalog_NoDup (low high : Z) :
  NoDup (build_catalog [0; 4; 7] [0; 3; 7] low high).
Proof.
  unfold build_catalog. apply NoDup_app. split; [|split].
  - apply (NoDup_fmap_2 _ (Inj0 := triad_inj 4 7)), NoDup_seqZ.
  - intros t Ht Ht'. apply list_elem_of_fmap in Ht as (i & -> & _).
    apply list_elem_of_fmap in Ht' as (j & Hij & _). simpl in Hij.
    injection Hij as ? ? ?. lia.
  - apply (NoDup_fmap_2 _ (Inj0 := triad_inj 3 7)), NoDup_seqZ.
Qed.

Lemma elem_of_product {A} (pool : list A) (n : nat) (p : list A) :
  p ∈ product pool n ↔ length p = n ∧ Forall (λ x, x ∈ pool) p.
Proof.
  revert p. induction n as [|n IH]; intros p; simpl.
  - rewrite list_elem_of_singleton. split.
    + intros ->. by split.
    + intros [Hlen _]. by destruct p.
  - rewrite list_elem_of_bind. split.
    + intros (x & Hp & Hx). apply list_elem_of_fmap in Hp as (q & -> & Hq).
      apply IH in Hq as [Hlen Hall]. simpl. split; [by f_equal|].
      by constructor.
    + intros [Hlen Hall]. destruct p as [|x q]; [done|].
      apply Forall_cons in Hall as [Hx Hq]. exists x. split; [|done].
      apply list_elem_of_fmap. exists q. split; [done|].
      apply IH. split; [|done]. simpl in Hlen. lia.
Qed.

Lemma NoDup_product {A} (pool : list A) (n : nat) :
  NoDup pool → NoDup (product pool n).
Proof.
  intros Hpool. induction n as [|n IH]; simpl; [apply NoDup_singleton|].
  apply NoDup_bind; [| |done].
  - intros x1 x2 p _ _ H1 H2.
    apply list_elem_of_fmap in H1 as (q1 & -> & _).
    apply list_elem_of_fmap in H2 as (q2 & Heq & _). by injection Heq.
  - intros x _. apply NoDup_fmap_2_strong; [|done]. by intros q1 q2 _ _ [= ->].
Qed.

(** X4: the catalog lists no template twice, whatever the range; nor does
    the product of a pool without repetitions list a progression twice. *)
Theorem build_catalog_NoDup (low high : Z) (n : nat) :
  NoDup (build_catalog [0; 4; 7] [0; 3; 7] low high)
  ∧ NoDup (templates __init__)
  ∧ NoDup (product (build_catalog [0; 4; 7] [0; 3; 7] low high) n).
Proof.
  split; [apply catalog_NoDup|]. split; [apply catalog_NoDup|].
  apply NoDup_product, catalog_NoDup.
Qed.

Section dispatcher_more.
Context `{Collaborators}.

(** *** What a run keeps *)

Lemma step_resolved_stable st ev st' f t :
  step st ev = Some st' → executor st !! f = Some t → ¬ pending t →
  executor st' !! f = Some t.
Proof.
  intros Hstep Hf Hdone.
  destruct (step_inversion _ _ _ Hstep) as (_ & _ & [[-> _]|[(combo & -> & _)|Hw]]).
  - done.
  - by apply lookup_app_l_Some.
  - destruct Hw as (g & tg & _ & Hg & Hpend & -> & _).
    rewrite list_lookup_insert_ne; [done|]. intros ->.
    rewrite Hf in Hg. by injection Hg as ->.
Qed.

Lemma step_executor_length st ev st' :
  step st ev = Some st' → (length (executor st) ≤ length (executor st'))%nat.
Proof.
  intros Hstep.
  destruct (step_inversion _ _ _ Hstep) as (_ & _ & [[-> _]|[(combo & -> & _)|Hw]]).
  - done.
  - rewrite length_app. lia.
  - destruct Hw as (g & tg & _ & _ & _ & -> & _). by rewrite length_insert.
Qed.

(** X5: along any run the progress count and the number of submitted units
    only grow, a resolved unit keeps its result (no unit is run twice), and
    at every point the progress count is at most the number of submitted
    units, which is at most the total. *)
Theorem generate_all_monotone self kw d schedule st more st' :
  generate_all self kw d schedule = Some (inr st) →
  run st more = Some st' →
  (pbar st ≤ length (executor st))%nat
  ∧ (length (executor st) ≤ total st)%nat
  ∧ (pbar st ≤ pbar st')%nat
  ∧ (length (executor st) ≤ length (executor st'))%nat
  ∧ ∀ f t ok, executor st !! f = Some t → t_result t = Some ok →
      executor st' !! f = Some t.
Proof.
  intros Hgen Hrun. apply generate_all_inv in Hgen as [_ Hinv].
  pose proof (inv_at _ _ _ _ Hinv) as Hloc.
  split; [|split].
  { destruct (at_ st); [lia|lia|lia|lia|done]. }
  { rewrite (inv_total _ _ _ _ Hinv), <- (inv_i _ _ _ _ Hinv).
    apply (inv_i_le _ _ _ _ Hinv). }
  clear Hinv Hloc. revert st Hrun.
  induction more as [|ev more IH]; intros st Hrun; simpl in Hrun.
  { injection Hrun as <-. by auto. }
  destruct (step st ev) as [st1|] eqn:Hstep; [|done]. simpl in Hrun.
  destruct (IH _ Hrun) as (Hp & Hl & Hres).
  pose proof (step_pbar _ _ _ Hstep) as Hp1.
  pose proof (step_executor_length _ _ _ Hstep) as Hl1.
  split; [destruct ev; lia|]. split; [lia|].
  intros f t ok Hf Hok. apply (Hres f t ok); [|done].
  eapply step_resolved_stable; [done..|]. unfold pending. by rewrite Hok.
Qed.

(** X6: every progression submitted has exactly [num_chords] chords, all of
    them templates of the catalog, and when the catalog lists no template
    twice no progression is submitted twice. *)
Theorem generate_all_submitted_progressions self kw d schedule st :
  generate_all self kw d schedule = Some (inr st) →
  (∀ f t, executor st !! f = Some t →
     Z.of_nat (length (t_progression t)) = num_chords (bind_parameters kw)
     ∧ Forall (λ c, c ∈ templates self) (t_progression t)
     ∧ t_output_dir t = output_dir (bind_parameters kw))
  ∧ (NoDup (templates self) → NoDup (t_progression <$> executor st)).
Proof.
  intros Hgen. apply generate_all_inv in Hgen as [Hn Hinv].
  pose proof (inv_submitted _ _ _ _ Hinv) as Hsub. split.
  - intros f t Hf.
    assert (Hin : t_progression t ∈ t_progression <$> executor st).
    { apply list_elem_of_fmap. exists t. split; [done|].
      by eapply list_elem_of_lookup_2. }
    rewrite Hsub in Hin. apply elem_of_take in Hin as (k & Hk & _).
    apply list_elem_of_lookup_2, elem_of_product in Hk as [Hlen Hall].
    split; [rewrite Hlen; lia|]. split; [done|].
    by eapply (inv_dirs _ _ _ _ Hinv).
  - intros Hnd. rewrite Hsub.
    eapply sublist_NoDup; [by apply NoDup_product|apply sublist_take].
Qed.

End dispatcher_more.

(** ** File names *)

Lemma chars_inj (s1 s2 : string) :
  list_ascii_of_string s1 = list_ascii_of_string s2 → s1 = s2.
Proof.
  intros Heq. rewrite <- (string_of_list_ascii_of_string s1),
    <- (string_of_list_ascii_of_string s2). by rewrite Heq.
Qed.

Lemma append_inv_tail (s1 s2 t : string) : s1 +:+ t = s2 +:+ t → s1 = s2.
Proof.
  intros Heq. apply chars_inj. apply (f_equal list_ascii_of_string) in Heq.
  rewrite !chars_app in Heq. by apply app_inv_tail in Heq.
Qed.

Lemma append_inv_head (t s1 s2 : string) : t +:+ s1 = t +:+ s2 → s1 = s2.
Proof.
  intros Heq. apply chars_inj. apply (f_equal list_ascii_of_string) in Heq.
  rewrite !chars_app in Heq. by apply app_inv_head in Heq.
Qed.

Lemma append_nil_l (s : string) : "" +:+ s = s.
Proof. done. Qed.

Lemma append_cons (c : ascii) (s t : string) :
  String c s +:+ t = String c (s +:+ t).
Proof. done. Qed.

Lemma append_dash_inj (s s' r r' : string) :
  "-"%char ∉ list_ascii_of_string s → "-"%char ∉ list_ascii_of_string s' →
  s +:+ "-" +:+ r = s' +:+ "-" +:+ r' → s = s' ∧ r = r'.
Proof.
  revert s'. induction s as [|c s IH]; intros [|c' s'] Hs Hs';
    repeat (rewrite append_cons || rewrite append_nil_l).
  - by intros [= ->].
  - intros [= <- _]. exfalso. apply Hs'. simpl. left.
  - intros [= -> _]. exfalso. apply Hs. simpl. left.
  - intros [= -> Heq]. simpl in Hs, Hs'.
    destruct (IH s') as [-> ->]; [| |done|done].
    + intros Hin. apply Hs. by right.
    + intros Hin. apply Hs'. by right.
Qed.

Lemma join_cons_cons sep (s t : string) (l : list string) :
  join sep (s :: t :: l) = s +:+ sep +:+ join sep (t :: l).
Proof. done. Qed.

Lemma join_inj (l1 l2 : list string) :
  Forall plain_name l1 → Forall plain_name l2 →
  join "-" l1 = join "-" l2 → l1 = l2.
Proof.
  assert (Hdash : ∀ (s s' r : string),
    "-"%char ∉ list_ascii_of_string s → s ≠ s' +:+ "-" +:+ r).
  { intros s s' r Hs ->. apply Hs. rewrite chars_app. simpl.
    apply elem_of_app. right. left. }
  revert l2. induction l1 as [|s l1 IH]; intros [|s' l2] H1 H2.
  - done.
  - apply Forall_cons in H2 as [[Hne _] _]. destruct l2 as [|t' l2].
    + simpl. by intros <-.
    + rewrite join_cons_cons. simpl. by destruct s'.
  - apply Forall_cons in H1 as [[Hne _] _]. destruct l1 as [|t l1].
    + simpl. by intros ->.
    + rewrite join_cons_cons. simpl. by destruct s.
  - apply Forall_cons in H1 as [[_ Hs] H1].
    apply Forall_cons in H2 as [[_ Hs'] H2].
    destruct l1 as [|t l1], l2 as [|t' l2].
    + simpl. by intros ->.
    + rewrite join_cons_cons. simpl join. intros Heq. by apply Hdash in Heq.
    + rewrite join_cons_cons. simpl join. intros Heq. symmetry in Heq.
      by apply Hdash in Heq.
    + rewrite !join_cons_cons. intros Heq.
      apply append_dash_inj in Heq as [-> Heq]; [|done..].
      f_equal. by apply IH.
Qed.

Section file_names.
Context `{Collaborators}.

Lemma get_chord_name_plain notes s :
  _get_chord_name notes = inr s → plain_name s.
Proof.
  intros Hs. apply get_chord_name_inv in Hs as (root & name & _ & _ & ->).
  split.
  - intros Heq. apply (f_equal list_ascii_of_string) in Heq.
    rewrite !chars_app in Heq. simpl in Heq.
    by destruct (list_ascii_of_string (replace "-" "b" name)).
  - rewrite !chars_app, chars_replace. intros Hin.
    apply elem_of_app in Hin as [Hin|Hin].
    + apply list_elem_of_fmap in Hin as (c & Hc & _).
      case_decide; [done|]. congruence.
    + apply elem_of_app in Hin as [Hin|Hin].
      * simpl in Hin. by apply list_elem_of_singleton in Hin.
      * by apply chord_type_of_chars in Hin as [? _].
Qed.

Lemma filename_of_inr progression filename :
  filename_of progression = inr filename ↔
  ∃ names, Forall2 (λ c n, _get_chord_name c = inr n) progression names
    ∧ filename = join "-" names +:+ ".mid".
Proof.
  unfold filename_of.
  destruct (comprehension _get_chord_name progression) as [e|names] eqn:Hc;
    simpl.
  - split; [done|]. intros (names & Hall & _).
    apply comprehension_Forall2 in Hall. congruence.
  - apply comprehension_Forall2 in Hc. unfold ret. split.
    + intros [= <-]. by exists names.
    + intros (names' & Hall & ->). apply comprehension_Forall2 in Hall.
      apply comprehension_Forall2 in Hc. congruence.
Qed.

Lemma save_single_try_filename progression out d :
  _save_single_try progression out d =
    (filename ← filename_of progression;
     _ ← midi_write progression (os_path_join out filename) d;
     ret (<[os_path_join out filename := progression]> d)).
Proof.
  unfold _save_single_try, filename_of.
  by destruct (comprehension _get_chord_name progression).
Qed.

Lemma filename_of_inj_on (p1 p2 : progression) (filename : string) :
  (∀ c1 c2 n, c1 ∈ p1 → c2 ∈ p2 →
     _get_chord_name c1 = inr n → _get_chord_name c2 = inr n → c1 = c2) →
  filename_of p1 = inr filename → filename_of p2 = inr filename → p1 = p2.
Proof.
  intros Hinj H1 H2.
  apply filename_of_inr in H1 as (names1 & Hall1 & ->).
  apply filename_of_inr in H2 as (names2 & Hall2 & Heq).
  apply append_inv_tail, join_inj in Heq.
  - subst names2. revert p2 Hinj Hall2.
    induction Hall1 as [|c1 n p1 names Hc1 Hall1 IH]; intros p2 Hinj Hall2.
    + by apply Forall2_nil_inv_r in Hall2.
    + apply Forall2_cons_inv_r in Hall2 as (c2 & p2' & Hc2 & Hall2 & ->).
      f_equal.
      * apply (Hinj c1 c2 n); [left|left|done|done].
      * apply IH; [|done]. intros c c' m Hc Hc'. apply Hinj; by right.
  - apply Forall_forall. intros n Hn.
    apply list_elem_of_lookup in Hn as [k Hk].
    destruct (Forall2_lookup_r _ _ _ _ _ Hall1 Hk) as (c & _ & Hc).
    by eapply get_chord_name_plain.
  - apply Forall_forall. intros n Hn.
    apply list_elem_of_lookup in Hn as [k Hk].
    destruct (Forall2_lookup_r _ _ _ _ _ Hall2 Hk) as (c & _ & Hc).
    by eapply get_chord_name_plain.
Qed.

End file_names.

(** ** The unit of work and the disk *)

Section disk.
Context `{Collaborators}.

Lemma save_single_true progression out d d' :
  _save_single progression out d = (true, d') →
  ∃ filename, filename_of progression = inr filename
    ∧ midi_write progression (os_path_join out filename) d = inr ()
    ∧ d' = <[os_path_join out filename := progression]> d.
Proof.
  unfold _save_single. rewrite save_single_try_filename.
  destruct (filename_of progression) as [e|filename]; simpl; [done|].
  destruct (midi_write progression (os_path_join out filename) d) as [e|[]]
    eqn:Hw; simpl; [done|].
  intros [= <-]. exists filename. by split_and!.
Qed.

Lemma save_single_false progression out d d' :
  _save_single progression out d = (false, d') → d' = d.
Proof.
  unfold _save_single.
  destruct (_save_single_try progression out d); [|done]. by intros [= <-].
Qed.

Lemma filename_of_nonempty_chords progression filename :
  filename_of progression = inr filename → Forall (λ c, c ≠ []) progression.
Proof.
  intros Hfn. apply filename_of_inr in Hfn as (names & Hall & _).
  apply Forall_forall. intros c Hc ->.
  apply list_elem_of_lookup in Hc as [k Hk].
  by destruct (Forall2_lookup_l _ _ _ _ _ Hall Hk) as (n & _ & Hn).
Qed.

(** X8: a progression with a chord that has no note fails, whatever the
    collaborators do, and nothing is written. *)
Theorem save_single_empty_chord progression out d :
  [] ∈ progression → _save_single progression out d = (false, d).
Proof.
  intros Hin. destruct (_save_single progression out d) as [[|] d'] eqn:Hsave.
  - apply save_single_true in Hsave as (filename & Hfn & _).
    apply filename_of_nonempty_chords in Hfn.
    rewrite Forall_forall in Hfn. by apply Hfn in Hin.
  - f_equal. by eapply save_single_false.
Qed.

(** *** The disk along a run *)

Lemma wrote_same_pool st st' fp content :
  executor st' = executor st → wrote st' fp content ↔ wrote st fp content.
Proof. unfold wrote. by intros ->. Qed.

Lemma wrote_submit st st' t fp content :
  executor st' = executor st ++ [t] → t_result t = None →
  wrote st' fp content ↔ wrote st fp content.
Proof.
  intros Hex Hnone. unfold wrote. rewrite Hex. split.
  - intros (f & t' & Hf & Hres & Hrest).
    apply lookup_app_Some in Hf as [Hf|[_ Hf]]; [by exists f, t'|].
    apply list_lookup_singleton_Some in Hf as [_ <-]. congruence.
  - intros (f & t' & Hf & Hrest). exists f, t'. split; [|done].
    by apply lookup_app_l_Some.
Qed.

Lemma wrote_resolve st st' f t ok fp content :
  executor st !! f = Some t → t_result t = None →
  executor st' =
    <[f := {| t_progression := t_progression t; t_output_dir := t_output_dir t;
              t_result := Some ok |}]> (executor st) →
  wrote st' fp content ↔
  wrote st fp content
  ∨ (ok = true ∧ unit_path t = Some fp ∧ t_progression t = content).
Proof.
  intros Hf Hnone Hex. unfold wrote. rewrite Hex. split.
  - intros (g & t' & Hg & Hres & Hpath & Hcontent).
    destruct (decide (g = f)) as [->|Hne].
    + rewrite list_lookup_insert_eq in Hg by by eapply lookup_lt_Some.
      injection Hg as <-. simpl in *. right. by injection Hres as ->.
    + rewrite list_lookup_insert_ne in Hg by done. left. by exists g, t'.
  - intros [(g & t' & Hg & Hres & Hrest)|(-> & Hpath & Hcontent)].
    + exists g, t'. split; [|done]. rewrite list_lookup_insert_ne; [done|].
      intros ->. congruence.
    + eexists f, _. split; [apply list_lookup_insert_eq; by eapply lookup_lt_Some|].
      done.
Qed.

Lemma disk_inv_step d st ev st' :
  disk_inv d st → step st ev = Some st' → disk_inv d st'.
Proof.
  intros Hd Hstep.
  destruct (step_inversion _ _ _ Hstep)
    as (_ & _ & [[Hex Hfiles]|[(combo & Hex & Hfiles)|Hw]]).
  - intros fp. rewrite Hfiles. destruct (Hd fp) as [(c & Hc & Hwr)|[Hno Hc]].
    + left. exists c. split; [done|]. by apply (wrote_same_pool _ _ _ _ Hex).
    + right. split; [|done]. intros c Hwr.
      apply (wrote_same_pool _ _ _ _ Hex) in Hwr. by eapply Hno.
  - intros fp. rewrite Hfiles. destruct (Hd fp) as [(c & Hc & Hwr)|[Hno Hc]].
    + left. exists c. split; [done|]. by apply (wrote_submit _ _ _ _ _ Hex).
    + right. split; [|done]. intros c Hwr.
      apply (wrote_submit _ _ _ _ _ Hex) in Hwr; [|done]. by eapply Hno.
  - destruct Hw as (f & t & _ & Hf & Hpend & Hex & Hfiles).
    destruct (_save_single (t_progression t) (t_output_dir t) (files st))
      as [ok dk] eqn:Hsave. simpl in Hex, Hfiles.
    pose proof (λ fp content,
      wrote_resolve _ _ _ _ _ fp content Hf Hpend Hex) as Hiff.
    intros fp. rewrite Hfiles. destruct ok.
    + apply save_single_true in Hsave as (filename & Hfn & _ & ->).
      assert (Hpath : unit_path t = Some (os_path_join (t_output_dir t) filename)).
      { unfold unit_path, path_of. by rewrite Hfn. }
      destruct (decide (fp = os_path_join (t_output_dir t) filename))
        as [->|Hne].
      * left. exists (t_progression t). split; [apply lookup_insert_eq|].
        apply Hiff. by right.
      * rewrite lookup_insert_ne by done.
        destruct (Hd fp) as [(c & Hc & Hwr)|[Hno Hc]].
        -- left. exists c. split; [done|]. apply Hiff. by left.
        -- right. split; [|done]. intros c Hwr.
           apply Hiff in Hwr as [Hwr|(_ & Hp & _)]; [by eapply Hno|].
           congruence.
    + apply save_single_false in Hsave as ->.
      destruct (Hd fp) as [(c & Hc & Hwr)|[Hno Hc]].
      * left. exists c. split; [done|]. apply Hiff. by left.
      * right. split; [|done]. intros c Hwr.
        apply Hiff in Hwr as [Hwr|(? & _)]; [by eapply Hno|done].
Qed.

Lemma disk_inv_run d st evs st' :
  disk_inv d st → run st evs = Some st' → disk_inv d st'.
Proof.
  revert st. induction evs as [|ev evs IH]; intros st Hd; simpl.
  - by intros [= <-].
  - destruct (step st ev) as [st1|] eqn:Hstep; simpl; [|done].
    apply IH. by eapply disk_inv_step.
Qed.

Lemma disk_inv_enter_loop p total0 combos0 d :
  disk_inv d (enter_loop p total0 combos0 d).
Proof.
  intros fp. right. split; [|done]. intros c (f & t & Hf & _). done.
Qed.

Lemma generate_all_disk_inv self kw d schedule st :
  generate_all self kw d schedule = Some (inr st) → disk_inv d st.
Proof.
  intros Hgen. apply generate_all_inr in Hgen as (st0 & Henter & Hrun).
  apply generate_all_enter_inr in Henter as (_ & _ & _ & ->).
  eapply disk_inv_run; [|done]. apply disk_inv_enter_loop.
Qed.

Lemma results_inv_step st ev st' :
  results_inv st → step st ev = Some st' → results_inv st'.
Proof.
  intros Hr Hstep.
  destruct (step_inversion _ _ _ Hstep)
    as (_ & _ & [[Hex _]|[(combo & Hex & _)|Hw]]).
  - intros f t ok. rewrite Hex. apply Hr.
  - intros f t ok. rewrite Hex. intros Hf Hok.
    apply lookup_app_Some in Hf as [Hf|[_ Hf]]; [by eapply Hr|].
    apply list_lookup_singleton_Some in Hf as [_ <-]. done.
  - destruct Hw as (g & tg & _ & Hg & _ & Hex & _).
    intros f t ok. rewrite Hex. intros Hf Hok.
    destruct (decide (f = g)) as [->|Hne].
    + rewrite list_lookup_insert_eq in Hf by by eapply lookup_lt_Some.
      injection Hf as <-. simpl in *. injection Hok as <-. by eexists.
    + rewrite list_lookup_insert_ne in Hf by done. by eapply Hr.
Qed.

Lemma generate_all_results_inv self kw d schedule st :
  generate_all self kw d schedule = Some (inr st) → results_inv st.
Proof.
  intros Hgen. apply generate_all_inr in Hgen as (st0 & Henter & Hrun).
  apply generate_all_enter_inr in Henter as (_ & _ & _ & ->).
  assert (Hr0 : results_inv
    (enter_loop (bind_parameters kw)
       (length (templates self) ^ Z.to_nat (num_chords (bind_parameters kw)))
       (product (templates self) (Z.to_nat (num_chords (bind_parameters kw)))) d)).
  { intros f t ok Hf. done. }
  revert Hr0 Hrun. generalize (enter_loop (bind_parameters kw)
       (length (templates self) ^ Z.to_nat (num_chords (bind_parameters kw)))
       (product (templates self) (Z.to_nat (num_chords (bind_parameters kw)))) d).
  induction schedule as [|ev evs IH]; intros st0 Hr0; simpl.
  - by intros [= <-].
  - destruct (step st0 ev) as [st1|] eqn:Hstep; simpl; [|done].
    apply IH. by eapply results_inv_step.
Qed.

(** X9: a run touches no file but those of its work units: at every point
    a path that does not hold what the call found there is
    [os.path.join(output_dir, name)] for the file name of a progression of
    the product that has been submitted; every other path is as the call
    found it. *)
Theorem generate_all_disk self kw d schedule st :
  generate_all self kw d schedule = Some (inr st) →
  ∀ fp, files st !! fp ≠ d !! fp →
    ∃ f t filename,
      executor st !! f = Some t
      ∧ t_progression t ∈
          product (templates self) (Z.to_nat (num_chords (bind_parameters kw)))
      ∧ filename_of (t_progression t) = inr filename
      ∧ fp = os_path_join (output_dir (bind_parameters kw)) filename.
Proof.
  intros Hgen fp Hne. pose proof (generate_all_disk_inv _ _ _ _ _ Hgen) as Hd.
  destruct (Hd fp) as [(c & _ & (f & t & Hf & _ & Hpath & _))|[_ Hc]]; [|done].
  unfold unit_path, path_of in Hpath.
  destruct (filename_of (t_progression t)) as [e|filename] eqn:Hfn; [done|].
  injection Hpath as <-. apply generate_all_inv in Hgen as [_ Hinv].
  exists f, t, filename. split; [done|]. split; [|split; [done|]].
  - assert (Hin : t_progression t ∈ t_progression <$> executor st).
    { apply list_elem_of_fmap. exists t. split; [done|].
      by eapply list_elem_of_lookup_2. }
    rewrite (inv_submitted _ _ _ _ Hinv) in Hin.
    apply elem_of_take in Hin as (k & Hk & _).
    by eapply list_elem_of_lookup_2.
  - by rewrite (inv_dirs _ _ _ _ Hinv _ _ Hf).
Qed.

End disk.

(** ** No two progressions share a file *)

Lemma startswith_append (s t : string) (c : ascii) :
  s ≠ "" → startswith (s +:+ t) c = startswith s c.
Proof. by destruct s. Qed.

Lemma startswith_replace (s : string) :
  startswith (replace "-" "b" s) "/" = startswith s "/".
Proof.
  destruct s as [|c s]; simpl; [done|]. case_decide as Hc; [|done].
  subst c. done.
Qed.

Lemma os_path_join_inj (out f1 f2 : string) :
  startswith f1 "/" = false → startswith f2 "/" = false →
  os_path_join out f1 = os_path_join out f2 → f1 = f2.
Proof.
  unfold os_path_join. intros -> ->.
  destruct (bool_decide (out = "") || endswith out "/").
  - apply append_inv_head.
  - intros Heq. by do 2 apply append_inv_head in Heq.
Qed.

Lemma template_cases (low high : Z) (t : chord) :
  t ∈ build_catalog [0; 4; 7] [0; 3; 7] low high →
  ∃ root, low ≤ root ≤ high
    ∧ (t = [root; root + 4; root + 7] ∨ t = [root; root + 3; root + 7]).
Proof.
  unfold build_catalog. intros Ht. apply elem_of_app in Ht as [Ht|Ht];
    apply list_elem_of_fmap in Ht as (root & -> & Hroot);
    apply elem_of_range in Hroot; exists root; (split; [lia|]);
    rewrite triad_of_shape; by auto.
Qed.

Section collisions.
Context `{Collaborators}.
Variables low high : Z.

(** The pitch utility names every root of the range, no name starting with
    the path separator, and no two roots alike once flats are rewritten. *)
Hypothesis roots_named : ∀ r, low ≤ r ≤ high →
  ∃ n, pitch_name r = inr n ∧ startswith n "/" = false.
Hypothesis roots_distinct : ∀ r1 r2 n1 n2,
  low ≤ r1 ≤ high → low ≤ r2 ≤ high →
  pitch_name r1 = inr n1 → pitch_name r2 = inr n2 →
  replace "-" "b" n1 = replace "-" "b" n2 → r1 = r2.

Abbreviation catalog := (build_catalog [0; 4; 7] [0; 3; 7] low high).

Lemma template_named (t : chord) :
  t ∈ catalog →
  ∃ root n quality, low ≤ root ≤ high ∧ pitch_name root = inr n
    ∧ startswith n "/" = false
    ∧ ((quality = "_major" ∧ t = [root; root + 4; root + 7])
       ∨ (quality = "_minor" ∧ t = [root; root + 3; root + 7]))
    ∧ _get_chord_name t = inr (replace "-" "b" n +:+ quality).
Proof.
  intros Ht. apply template_cases in Ht as (root & Hroot & Ht).
  destruct (roots_named root Hroot) as (n & Hn & Hslash).
  destruct Ht as [->| ->].
  - exists root, n, "_major".
    split; [done|]. split; [done|]. split; [done|]. split; [by left|].
    by rewrite (name_of_triad _ _ _ n).
  - exists root, n, "_minor".
    split; [done|]. split; [done|]. split; [done|]. split; [by right|].
    by rewrite (name_of_triad _ _ _ n).
Qed.

Lemma template_name_inj (t1 t2 : chord) (name : string) :
  t1 ∈ catalog → t2 ∈ catalog →
  _get_chord_name t1 = inr name → _get_chord_name t2 = inr name → t1 = t2.
Proof.
  intros Ht1 Ht2 H1 H2.
  apply template_named in Ht1 as (r1 & n1 & q1 & Hr1 & Hn1 & _ & Hq1 & Hname1).
  apply template_named in Ht2 as (r2 & n2 & q2 & Hr2 & Hn2 & _ & Hq2 & Hname2).
  rewrite Hname1 in H1. rewrite Hname2 in H2. injection H1 as <-.
  injection H2 as Heq.
  assert (Hsplit : replace "-" "b" n2 = replace "-" "b" n1 ∧ q2 = q1).
  { apply (f_equal list_ascii_of_string) in Heq. rewrite !chars_app in Heq.
    apply app_inj_2 in Heq as [Hn Hq].
    - split; by apply chars_inj.
    - by destruct Hq1 as [[-> _]|[-> _]], Hq2 as [[-> _]|[-> _]]. }
  destruct Hsplit as [Hn Hq]. symmetry in Hn.
  pose proof (roots_distinct _ _ _ _ Hr1 Hr2 Hn1 Hn2 Hn) as <-.
  destruct Hq1 as [[-> ->]|[-> ->]], Hq2 as [[-> ->]|[-> ->]]; done.
Qed.

Lemma catalog_filename (p : progression) :
  Forall (λ c, c ∈ catalog) p →
  ∃ filename, filename_of p = inr filename ∧ startswith filename "/" = false.
Proof.
  intros Hp.
  assert (Hnames : ∃ names,
    Forall2 (λ c n, _get_chord_name c = inr n) p names
    ∧ Forall (λ n, startswith n "/" = false ∧ n ≠ "") names).
  { induction Hp as [|c p Hc Hp (names & Hall & Hslash)].
    - exists []. split; constructor.
    - apply template_named in Hc as (r & n & q & _ & _ & Hn & Hq & Hname).
      exists ((replace "-" "b" n +:+ q) :: names).
      split; [by constructor|]. constructor; [|done].
      assert (Hq' : q = "_major" ∨ q = "_minor")
        by (destruct Hq as [[-> _]|[-> _]]; auto).
      rewrite <- startswith_replace in Hn.
      destruct (replace "-" "b" n) as [|c0 s0].
      + by destruct Hq' as [-> | ->].
      + by rewrite startswith_append. }
  destruct Hnames as (names & Hall & Hslash).
  exists (join "-" names +:+ ".mid"). split.
  - apply filename_of_inr. by exists names.
  - destruct Hslash as [|n names' [Hn Hne] _]; [done|].
    destruct n as [|c n0]; [done|]. destruct names'; exact Hn.
Qed.

Lemma catalog_filename_inj (p1 p2 : progression) (filename : string) :
  Forall (λ c, c ∈ catalog) p1 → Forall (λ c, c ∈ catalog) p2 →
  filename_of p1 = inr filename → filename_of p2 = inr filename → p1 = p2.
Proof.
  intros Hp1 Hp2. apply filename_of_inj_on. intros c1 c2 n Hc1 Hc2.
  rewrite Forall_forall in Hp1, Hp2. apply template_name_inj; auto.
Qed.

(** X10: when the pitch utility names the roots of the range differently,
    two progressions over the catalog that get the same file name are the
    same progression, and so are two that get the same path under one
    output directory. *)
Theorem filename_of_catalog_inj (p1 p2 : progression) (out f1 f2 : string) :
  Forall (λ c, c ∈ catalog) p1 → Forall (λ c, c ∈ catalog) p2 →
  filename_of p1 = inr f1 → filename_of p2 = inr f2 →
  (f1 = f2 → p1 = p2)
  ∧ (os_path_join out f1 = os_path_join out f2 → p1 = p2).
Proof.
  intros Hp1 Hp2 Hf1 Hf2.
  assert (Hname : f1 = f2 → p1 = p2).
  { intros <-. by eapply catalog_filename_inj. }
  split; [done|]. intros Hpath. apply Hname.
  destruct (catalog_filename p1 Hp1) as (f1' & Hf1' & Hs1).
  destruct (catalog_filename p2 Hp2) as (f2' & Hf2' & Hs2).
  assert (f1' = f1) as -> by congruence.
  assert (f2' = f2) as -> by congruence.
  by eapply os_path_join_inj.
Qed.

Lemma catalog_save_single (p : progression) (out : string) (dk : disk) :
  (∀ q fp dk', midi_write q fp dk' = inr ()) →
  Forall (λ c, c ∈ catalog) p →
  ∃ filename, filename_of p = inr filename
    ∧ path_of out p = Some (os_path_join out filename)
    ∧ _save_single p out dk = (true, <[os_path_join out filename := p]> dk).
Proof.
  intros Hwrite Hp. destruct (catalog_filename p Hp) as (filename & Hfn & _).
  exists filename. split; [done|]. split.
  - unfold path_of. by rewrite Hfn.
  - unfold _save_single. rewrite save_single_try_filename, Hfn. simpl.
    by rewrite Hwrite.
Qed.

Lemma catalog_path_inj (out : string) (p1 p2 : progression) (fp : string) :
  Forall (λ c, c ∈ catalog) p1 → Forall (λ c, c ∈ catalog) p2 →
  path_of out p1 = Some fp → path_of out p2 = Some fp → p1 = p2.
Proof.
  intros Hp1 Hp2 H1 H2.
  destruct (catalog_filename p1 Hp1) as (f1 & Hf1 & Hs1).
  destruct (catalog_filename p2 Hp2) as (f2 & Hf2 & Hs2).
  unfold path_of in H1, H2. rewrite Hf1 in H1. rewrite Hf2 in H2.
  injection H1 as <-. injection H2 as Heq.
  apply os_path_join_inj in Heq; [|done..]. subst f2.
  by eapply catalog_filename_inj.
Qed.

(** X11: when no write fails and the pitch utility names the roots of the
    range differently, a run over that catalog that has returned has
    resolved every unit to [True], has left each progression of the product
    in the file of its own name under the output directory, and, started
    on an empty disk, has left exactly [total] files. *)
Theorem generate_all_writes_every_file self kw d schedule st v :
  templates self = catalog →
  (∀ q fp dk, midi_write q fp dk = inr ()) →
  generate_all self kw d schedule = Some (inr st) →
  at_ st = Returned v →
  let out := output_dir (bind_parameters kw) in
  (∀ f t, executor st !! f = Some t → t_result t = Some true)
  ∧ (∀ p, p ∈ product (templates self)
              (Z.to_nat (num_chords (bind_parameters kw))) →
       ∃ filename, filename_of p = inr filename
         ∧ files st !! os_path_join out filename = Some p)
  ∧ (d = ∅ → size (files st) = total st).
Proof.
  intros Hcat Hwrite Hgen Hv out.
  pose proof (generate_all_disk_inv _ _ _ _ _ Hgen) as Hd.
  pose proof (generate_all_results_inv _ _ _ _ _ Hgen) as Hres.
  apply generate_all_inv in Hgen as [_ Hinv].
  set (n := Z.to_nat (num_chords (bind_parameters kw))) in *.
  pose proof (inv_at _ _ _ _ Hinv) as Hloc. rewrite Hv in Hloc.
  destruct Hloc as (_ & _ & _ & Hfl & Hmin & _).
  unfold progression in Hmin. rewrite length_product in Hmin.
  assert (Hexec : t_progression <$> executor st = product (templates self) n).
  { rewrite (inv_submitted _ _ _ _ Hinv). apply take_ge.
    unfold progression. rewrite length_product. lia. }
  assert (Hunit : ∀ f t, executor st !! f = Some t →
    Forall (λ c, c ∈ catalog) (t_progression t) ∧ t_output_dir t = out).
  { intros f t Hf. split; [|by eapply (inv_dirs _ _ _ _ Hinv)].
    assert (Hin : t_progression t ∈ product (templates self) n).
    { rewrite <- Hexec. apply list_elem_of_fmap. exists t. split; [done|].
      by eapply list_elem_of_lookup_2. }
    apply elem_of_product in Hin as [_ Hall]. by rewrite <- Hcat. }
  assert (Htrue : ∀ f t, executor st !! f = Some t → t_result t = Some true).
  { intros f t Hf. unfold in_flight in Hfl.
    rewrite filter_pending_nil_iff in Hfl. specialize (Hfl f t Hf).
    unfold pending in Hfl. destruct (t_result t) as [ok|] eqn:Hok; [|done].
    destruct (Hres f t ok Hf Hok) as (dk & <-).
    destruct (Hunit f t Hf) as [Hall _].
    destruct (catalog_save_single _ (t_output_dir t) dk Hwrite Hall)
      as (filename & _ & _ & ->). done. }
  assert (Hwrote : ∀ p, p ∈ product (templates self) n →
    ∃ filename, filename_of p = inr filename
      ∧ wrote st (os_path_join out filename) p).
  { intros p Hp. rewrite <- Hexec in Hp.
    apply list_elem_of_fmap in Hp as (t & -> & Ht).
    apply list_elem_of_lookup in Ht as [f Hf].
    destruct (Hunit f t Hf) as [Hall Hdir].
    destruct (catalog_save_single _ out ∅ Hwrite Hall)
      as (filename & Hfn & Hpath & _).
    exists filename. split; [done|]. exists f, t.
    split; [done|]. split; [by eapply Htrue|]. split; [|done].
    unfold unit_path. by rewrite Hdir. }
  assert (Hown : ∀ fp c1 c2, wrote st fp c1 → wrote st fp c2 → c1 = c2).
  { intros fp c1 c2 (f1 & t1 & Hf1 & _ & Hp1 & <-) (f2 & t2 & Hf2 & _ & Hp2 & <-).
    destruct (Hunit f1 t1 Hf1) as [Hall1 Hdir1].
    destruct (Hunit f2 t2 Hf2) as [Hall2 Hdir2].
    unfold unit_path in Hp1, Hp2. rewrite Hdir1 in Hp1. rewrite Hdir2 in Hp2.
    by eapply catalog_path_inj. }
  split; [done|]. split.
  - intros p Hp. destruct (Hwrote p Hp) as (filename & Hfn & Hwr).
    exists filename. split; [done|].
    destruct (Hd (os_path_join out filename)) as [(c & Hc & Hwr')|[Hno _]].
    + by rewrite (Hown _ _ _ Hwr Hwr').
    + by apply Hno in Hwr.
  - intros ->. rewrite (inv_total _ _ _ _ Hinv).
    set (path := λ p, default "" (path_of out p)).
    assert (Hdom : dom (files st)
      = list_to_set (path <$> product (templates self) n)).
    { apply set_eq. intros fp.
      rewrite elem_of_dom, elem_of_list_to_set, list_elem_of_fmap. split.
      - intros [c Hc]. destruct (Hd fp) as [(c' & _ & Hwr)|[_ Hnone]].
        + destruct Hwr as (f & t & Hf & _ & Hpath & _).
          destruct (Hunit f t Hf) as [_ Hdir].
          exists (t_progression t). split.
          * unfold path. unfold unit_path in Hpath.
            by rewrite <- Hdir, Hpath.
          * rewrite <- Hexec. apply list_elem_of_fmap. exists t.
            split; [done|]. by eapply list_elem_of_lookup_2.
        + rewrite Hc in Hnone. done.
      - intros (p & -> & Hp). destruct (Hwrote p Hp) as (filename & Hfn & Hwr).
        unfold path, path_of. rewrite Hfn. simpl.
        destruct (Hd (os_path_join out filename)) as [(c & Hc & _)|[Hno _]].
        + by exists c.
        + by apply Hno in Hwr. }
    rewrite <- size_dom, Hdom, size_list_to_set.
    + rewrite length_fmap. unfold progression. by rewrite length_product.
    + apply NoDup_fmap_2_strong;
        [|rewrite Hcat; apply NoDup_product, catalog_NoDup].
      intros p1 p2 Hp1 Hp2 Heq.
      apply elem_of_product in Hp1 as [_ Hall1].
      apply elem_of_product in Hp2 as [_ Hall2].
      rewrite Hcat in Hall1, Hall2.
      destruct (catalog_save_single p1 out ∅ Hwrite Hall1)
        as (f1 & _ & Hpath1 & _).
      destruct (catalog_save_single p2 out ∅ Hwrite Hall2)
        as (f2 & _ & Hpath2 & _).
      unfold path in Heq. rewrite Hpath1, Hpath2 in Heq. simpl in Heq.
      rewrite <- Heq in Hpath2. by eapply catalog_path_inj.
Qed.

End collisions.

(** ** Batches *)

(** The quotient and the remainder of a count by [batch_size]. *)
Lemma batch_div_mod (k : nat) :
  (k = batch_size * (k / batch_size) + k mod batch_size)%nat
  ∧ (k mod batch_size < batch_size)%nat.
Proof.
  split; [apply Nat.div_mod_eq|]. apply Nat.mod_upper_bound. unfold batch_size. lia.
Qed.

Lemma batch_succ_lt (k : nat) :
  (S (k mod batch_size) < batch_size)%nat →
  (S k / batch_size = k / batch_size)%nat
  ∧ (S k mod batch_size = S (k mod batch_size))%nat.
Proof.
  destruct (batch_div_mod k) as [Hk Hkm], (batch_div_mod (S k)) as [Hs Hsm].
  revert Hk Hkm Hs Hsm. generalize (k / batch_size)%nat (k mod batch_size)%nat
    (S k / batch_size)%nat (S k mod batch_size)%nat.
  unfold batch_size. lia.
Qed.

Lemma batch_succ_full (k : nat) :
  (batch_size ≤ S (k mod batch_size))%nat →
  (S k mod batch_size = 0)%nat
  ∧ (batch_size * (k / batch_size) = S k - batch_size)%nat.
Proof.
  destruct (batch_div_mod k) as [Hk Hkm], (batch_div_mod (S k)) as [Hs Hsm].
  revert Hk Hkm Hs Hsm. generalize (k / batch_size)%nat (k mod batch_size)%nat
    (S k / batch_size)%nat (S k mod batch_size)%nat.
  unfold batch_size. lia.
Qed.

Lemma batch_split (k : nat) :
  (batch_size * (k / batch_size) + k mod batch_size = k)%nat
  ∧ (k mod batch_size < batch_size)%nat.
Proof. destruct (batch_div_mod k). split; [lia|done]. Qed.

Lemma batch_prev (k : nat) :
  (batch_size * ((k - 1) / batch_size) ≤ batch_size * (k / batch_size))%nat
  ∧ ((0 < k)%nat → (k mod batch_size = 0)%nat →
     (batch_size * ((k - 1) / batch_size) = k - batch_size)%nat).
Proof.
  destruct (batch_div_mod k) as [Hk Hkm], (batch_div_mod (k - 1)) as [Hp Hpm].
  revert Hk Hkm Hp Hpm. generalize (k / batch_size)%nat (k mod batch_size)%nat
    ((k - 1) / batch_size)%nat ((k - 1) mod batch_size)%nat.
  unfold batch_size. lia.
Qed.

Section batches.
Context `{Collaborators}.

Local Opaque batch_size.

Lemma batched_step p total0 combos0 st ev st' :
  inv p total0 combos0 st → batched st → step st ev = Some st' → batched st'.
Proof.
  intros Hinv Hb Hstep. unfold batched in *.
  pose proof (inv_at _ _ _ _ Hinv) as Hloc.
  destruct ev as [|f|f]; simpl in Hstep.
  - destruct (at_ st) as [|waiting|waiting|v|e] eqn:Hat; try done.
    + injection Hstep as <-. unfold for_turn.
      destruct (all_combinations st) as [|combo rest]; simpl; [done|].
      case_decide; simpl; [done|].
      rewrite <- (inv_i _ _ _ _ Hinv), Hb.
      destruct (batch_split (i st)) as [Hsplit Hlt].
      assert (Hseq : seq (batch_size * (i st / batch_size)) (i st mod batch_size)
                     ++ [i st]
        = seq (batch_size * (i st / batch_size)) (S (i st mod batch_size))).
      { rewrite seq_S. by rewrite Hsplit. }
      rewrite length_app, length_seq. simpl.
      replace (i st mod batch_size + 1)%nat with (S (i st mod batch_size)) by lia.
      case_decide as Hfull; simpl.
      * destruct (batch_succ_full _ Hfull) as [Hmod Hstart].
        split; [lia|]. split; [done|]. intros f. rewrite Hseq, elem_of_seq. lia.
      * destruct (batch_succ_lt (i st)) as [Hdiv Hmod]; [lia|].
        by rewrite Hseq, Hdiv, Hmod.
    + case_decide as Hw; [|done]. injection Hstep as <-. simpl.
      destruct Hloc as (Hset & _). destruct Hb as (_ & -> & _).
      destruct (futures st) as [|f fs]; [done|]. exfalso.
      apply (not_elem_of_empty (C := gset nat) f). rewrite <- Hw, Hset.
      set_solver.
    + case_decide as Hw; [|done]. by injection Hstep as <-.
  - destruct (at_ st) as [|waiting|waiting|v|e] eqn:Hat; try done.
    + destruct (bool_decide (f ∈ waiting)) eqn:Hf; [|done].
      destruct (resolved st f) eqn:Hres; [|done]. simpl in Hstep.
      injection Hstep as <-. apply bool_decide_eq_true in Hf.
      destruct Hloc as (-> & _). apply elem_of_list_to_set in Hf.
      destruct (list_remove_elem_of _ _ Hf) as (futures' & Hrem & _).
      destruct (list_remove_NoDup _ _ _ (inv_nodup _ _ _ _ Hinv) Hrem)
        as [_ Hiff].
      unfold batch_drain_body. rewrite Hrem. simpl.
      destruct Hb as (Hpos & Hmod & Hlow). split; [done|]. split; [done|].
      intros g Hg. apply Hlow. by apply Hiff in Hg as [? _].
    + destruct (_ && _); [|done]. by injection Hstep as <-.
  - destruct (executor st !! f) as [t|] eqn:Hf; [|done].
    case_decide as Hpend; [|done]. injection Hstep as <-. unfold run_task.
    by destruct (_save_single _ _ _).
Qed.

Lemma batched_run p total0 combos0 st evs st' :
  inv p total0 combos0 st → batched st → run st evs = Some st' → batched st'.
Proof.
  revert st. induction evs as [|ev evs IH]; intros st Hinv Hb; simpl.
  - by intros [= <-].
  - destruct (step st ev) as [st1|] eqn:Hstep; simpl; [|done].
    apply IH; [by eapply inv_step|by eapply batched_step].
Qed.

Lemma generate_all_batched self kw d schedule st :
  generate_all self kw d schedule = Some (inr st) → batched st.
Proof.
  intros Hgen. apply generate_all_inr in Hgen as (st0 & Henter & Hrun).
  apply generate_all_enter_inr in Henter as (_ & _ & _ & ->).
  eapply batched_run; [apply inv_enter_loop| |done].
  unfold batched. simpl. by rewrite Nat.Div0.mod_0_l.
Qed.

(** X12: submission goes in batches of [batch_size].  Whenever the loop is
    about to take the next combination, the progress count is the size of
    the complete batches and the tracked futures are the units of the
    current batch, in submission order; the same futures are still tracked
    during the final drain and at the return, which removes none.  At every
    point an unresolved unit belongs to the batch of the unit submitted
    last: every earlier batch is resolved and counted. *)
Theorem generate_all_batches self kw d schedule st :
  generate_all self kw d schedule = Some (inr st) →
  ((∀ waiting, at_ st ≠ InBatchDrain waiting) →
     futures st
     = seq (batch_size * (i st / batch_size)) (i st mod batch_size))
  ∧ (at_ st = AtFor → pbar st = (batch_size * (i st / batch_size))%nat)
  ∧ (∀ f t, executor st !! f = Some t → pending t →
       (batch_size * ((i st - 1) / batch_size) ≤ f)%nat)
  ∧ (batch_size * ((i st - 1) / batch_size) ≤ pbar st)%nat.
Proof.
  intros Hgen. pose proof (generate_all_batched _ _ _ _ _ Hgen) as Hb.
  apply generate_all_inv in Hgen as [_ Hinv].
  pose proof (inv_at _ _ _ _ Hinv) as Hloc.
  pose proof (inv_i _ _ _ _ Hinv) as Hi.
  destruct (batch_split (i st)) as [Hsplit Hlt].
  destruct (batch_prev (i st)) as [Hprev Hprev0].
  unfold batched in Hb.
  assert (Hlow : ∀ f, f ∈ futures st →
    (batch_size * ((i st - 1) / batch_size) ≤ f)%nat).
  { intros f Hf. destruct (at_ st); try done.
    - rewrite Hb, elem_of_seq in Hf. lia.
    - destruct Hb as (Hpos & Hmod & Hlow). apply Hlow in Hf.
      rewrite (Hprev0 Hpos Hmod). lia.
    - rewrite Hb, elem_of_seq in Hf. lia.
    - rewrite Hb, elem_of_seq in Hf. lia. }
  split; [|split; [|split]].
  - intros Hnot. destruct (at_ st) as [|waiting| | |]; try done.
    by destruct (Hnot waiting).
  - intros Hat. rewrite Hat in Hloc, Hb. destruct Hloc as (_ & Hpbar & _).
    rewrite Hb, length_seq in Hpbar. lia.
  - intros f t Hf Hpend. apply Hlow. by eapply (inv_tracked _ _ _ _ Hinv).
  - destruct (at_ st) as [|waiting|waiting|v|e]; try done.
    + destruct Hloc as (_ & Hpbar & _). rewrite Hb, length_seq in Hpbar. lia.
    + destruct Hloc as (_ & Hpbar & _). destruct Hb as (Hpos & Hmod & _).
      rewrite (Hprev0 Hpos Hmod).
      pose proof (inv_batch _ _ _ _ Hinv). lia.
    + destruct Hloc as (Hsub & _ & Hpbar & _).
      assert (size waiting ≤ length (futures st))%nat.
      { rewrite <- (size_futures _ _ _ _ Hinv). by apply subseteq_size. }
      rewrite Hb, length_seq in *. lia.
    + destruct Hloc as (_ & _ & Hpbar & _). lia.
Qed.

Local Transparent batch_size.

End batches.

(** ** Workers against the coordinating thread *)

Section more_runs.
Context `{Collaborators}.

Lemma run_task_eq st f t :
  run_task st f t =
    {| params := params st; total := total st;
       all_combinations := all_combinations st; i := i st;
       futures := futures st;
       executor :=
         <[f := {| t_progression := t_progression t;
                   t_output_dir := t_output_dir t;
                   t_result := Some (_save_single (t_progression t)
                                       (t_output_dir t) (files st)).1 |}]>
           (executor st);
       pbar := pbar st;
       files := (_save_single (t_progression t) (t_output_dir t) (files st)).2;
       stdout := stdout st; at_ := at_ st |}.
Proof. unfold run_task. by destruct (_save_single _ _ _). Qed.

Lemma run_task_for_turn st f t :
  executor st !! f = Some t →
  for_turn (run_task st f t) = run_task (for_turn st) f t.
Proof.
  intros Hf. pose proof (lookup_lt_Some _ _ _ Hf) as Hlt.
  rewrite !run_task_eq. unfold for_turn. simpl.
  destruct (all_combinations st) as [|combo rest]; simpl; [done|].
  case_decide; simpl; [done|].
  rewrite length_insert. f_equal. by rewrite insert_app_l.
Qed.

Lemma for_turn_lookup st f t :
  executor st !! f = Some t → executor (for_turn st) !! f = Some t.
Proof.
  intros Hf. unfold for_turn.
  destruct (all_combinations st); simpl; [done|].
  case_decide; simpl; [done|]. by apply lookup_app_l_Some.
Qed.

(** X14: a worker's move and a move of the coordinating thread, either
    its own or a future handed back to it, do not interfere: when both are
    possible they can be taken in either order, with the same state as the
    result. *)
Theorem worker_commutes st f ev s1 s2 :
  (∀ g, ev ≠ Worker g) →
  step st (Worker f) = Some s1 → step st ev = Some s2 →
  ∃ s3, step s1 ev = Some s3 ∧ step s2 (Worker f) = Some s3.
Proof.
  intros Hev Hw Hstep. simpl in Hw.
  destruct (executor st !! f) as [t|] eqn:Hf; [|done].
  case_decide as Hpend; [|done]. injection Hw as <-.
  pose proof (lookup_lt_Some _ _ _ Hf) as Hlt.
  assert (Hat1 : at_ (run_task st f t) = at_ st) by by rewrite run_task_eq.
  assert (Hfut1 : futures (run_task st f t) = futures st)
    by by rewrite run_task_eq.
  assert (Hfl : in_flight st ≠ 0%nat).
  { unfold in_flight. intros Hz. rewrite filter_pending_nil_iff in Hz.
    by eapply Hz. }
  destruct ev as [|g|g]; [| |by destruct (Hev g)]; simpl in Hstep |- *;
    rewrite Hat1.
  - destruct (at_ st) as [|waiting|waiting|v|e] eqn:Hat; try done.
    + injection Hstep as <-. exists (for_turn (run_task st f t)).
      split; [done|]. rewrite run_task_for_turn by done.
      by rewrite (for_turn_lookup _ _ _ Hf), decide_True.
    + case_decide as Hwt; [|done]. injection Hstep as <-. simpl.
      rewrite Hf, decide_True by done. eexists. split; [done|].
      by rewrite !run_task_eq.
    + case_decide as Hwt; [|done]. by destruct Hwt as [_ Hz].
  - assert (Hres : resolved (run_task st f t) g = resolved st g
                   ∨ resolved st g = false).
    { unfold resolved. rewrite run_task_eq. simpl.
      destruct (decide (g = f)) as [->|Hne].
      - right. rewrite Hf. by rewrite bool_decide_eq_false_2 by by intros Hn.
      - left. by rewrite list_lookup_insert_ne. }
    destruct (at_ st) as [|waiting|waiting|v|e] eqn:Hat; try done.
    + destruct (bool_decide (g ∈ waiting)); [|done]. simpl in *.
      destruct (resolved st g) eqn:Hrg; [|done].
      destruct Hres as [->|?]; [|done]. injection Hstep as <-.
      eexists. split; [done|]. unfold batch_drain_body. rewrite Hfut1.
      destruct (list_remove g (futures st)); simpl;
        rewrite Hf, decide_True by done; by rewrite !run_task_eq.
    + destruct (bool_decide (g ∈ waiting)); [|done]. simpl in *.
      destruct (resolved st g) eqn:Hrg; [|done].
      destruct Hres as [->|?]; [|done]. injection Hstep as <-.
      eexists. split; [done|]. unfold final_drain_body. simpl.
      rewrite Hf, decide_True by done. by rewrite !run_task_eq.
Qed.

End more_runs.

(** ** The further theorems at concrete inputs *)

Lemma music21_roots_named (r : Z) :
  48 ≤ r ≤ 59 →
  ∃ n, pitch_name (Collaborators := reliable) r = inr n
    ∧ startswith n "/" = false.
Proof.
  intros Hr.
  assert (Hcases : r = 48 ∨ r = 49 ∨ r = 50 ∨ r = 51 ∨ r = 52 ∨ r = 53
    ∨ r = 54 ∨ r = 55 ∨ r = 56 ∨ r = 57 ∨ r = 58 ∨ r = 59) by lia.
  repeat (destruct Hcases as [->|Hcases]; [by eexists|]). subst r. by eexists.
Qed.

Lemma music21_roots_distinct (r1 r2 : Z) (n1 n2 : string) :
  48 ≤ r1 ≤ 59 → 48 ≤ r2 ≤ 59 →
  pitch_name (Collaborators := reliable) r1 = inr n1 →
  pitch_name (Collaborators := reliable) r2 = inr n2 →
  replace "-" "b" n1 = replace "-" "b" n2 → r1 = r2.
Proof.
  intros Hr1 Hr2.
  assert (H1 : r1 = 48 ∨ r1 = 49 ∨ r1 = 50 ∨ r1 = 51 ∨ r1 = 52 ∨ r1 = 53
    ∨ r1 = 54 ∨ r1 = 55 ∨ r1 = 56 ∨ r1 = 57 ∨ r1 = 58 ∨ r1 = 59) by lia.
  assert (H2 : r2 = 48 ∨ r2 = 49 ∨ r2 = 50 ∨ r2 = 51 ∨ r2 = 52 ∨ r2 = 53
    ∨ r2 = 54 ∨ r2 = 55 ∨ r2 = 56 ∨ r2 = 57 ∨ r2 = 58 ∨ r2 = 59) by lia.
  clear Hr1 Hr2.
  repeat (destruct H1 as [->|H1]); try subst r1;
    repeat (destruct H2 as [->|H2]); try subst r2;
    intros [= <-] [= <-] Heq; first [reflexivity|by vm_compute in Heq].
Qed.

Lemma generate_all_app `{Collaborators} self kw d s1 s2 st' :
  generate_all self kw d (s1 ++ s2) = Some (inr st') →
  ∃ st, generate_all self kw d s1 = Some (inr st) ∧ run st s2 = Some st'.
Proof.
  unfold generate_all.
  destruct (generate_all_enter self (bind_parameters kw) d) as [e|st0]; [done|].
  rewrite run_app. destruct (run st0 s1) as [st|]; simpl; [|done].
  destruct (run st s2) as [st1|] eqn:Hrun; simpl; [|done].
  intros [= <-]. by exists st.
Qed.

Lemma generate_all_monotone_witness :
  ∃ st st',
    generate_all (H := reliable) __init__ one_chord ∅ schedule_submissions
      = Some (inr st)
    ∧ run (H := reliable) st [Worker 3%nat; Worker 0%nat; Worker 7%nat]
      = Some st'
    ∧ (pbar st ≤ pbar st')%nat
    ∧ (length (executor st) ≤ total st)%nat.
Proof.
  destruct (generate_all (H := reliable) __init__ one_chord ∅ schedule_midway)
    as [[e|st']|] eqn:Hgen; [by vm_compute in Hgen| |by vm_compute in Hgen].
  apply (generate_all_app (H := reliable) _ _ _ schedule_submissions) in Hgen
    as (st & Hgen & Hrun).
  exists st, st'. split; [done|]. split; [done|].
  destruct (generate_all_monotone (H := reliable) _ _ _ _ _ _ _ Hgen Hrun)
    as (_ & Hle & Hp & _).
  split; [exact Hp|exact Hle].
Defined.

Lemma generate_all_submitted_progressions_witness :
  ∃ st,
    generate_all (H := reliable) __init__ one_chord ∅ schedule_midway
      = Some (inr st)
    ∧ (NoDup (templates __init__) → NoDup (t_progression <$> executor st)).
Proof.
  destruct (generate_all (H := reliable) __init__ one_chord ∅ schedule_midway)
    as [[e|st]|] eqn:Hgen; [by vm_compute in Hgen| |by vm_compute in Hgen].
  exists st. split; [done|].
  exact (proj2 (generate_all_submitted_progressions (H := reliable)
                  _ _ _ _ _ Hgen)).
Defined.

Example save_single_two_chords :
  _save_single (H := reliable) [[48; 52; 55]; [57; 60; 64]] "out" ∅
  = (true, {[ "out/C_major-A_minor.mid" := [[48; 52; 55]; [57; 60; 64]] ]}).
Proof. vm_compute. reflexivity. Qed.

Lemma save_single_empty_chord_witness :
  [] ∈ [[48; 52; 55]; []]
  ∧ _save_single (H := reliable) [[48; 52; 55]; []] "out" ∅ = (false, ∅).
Proof.
  assert (Hin : [] ∈ [[48; 52; 55]; []]) by (right; left).
  split; [exact Hin|].
  exact (save_single_empty_chord (H := reliable) _ "out" ∅ Hin).
Defined.

Example file_midway :
  match generate_all (H := reliable) __init__ one_chord ∅ schedule_midway with
  | Some (inr st) => files st !! "chord_output/C_major.mid"
  | _ => None
  end = Some [[48; 52; 55]].
Proof. vm_compute. reflexivity. Qed.

Lemma generate_all_disk_witness :
  ∃ st,
    generate_all (H := reliable) __init__ one_chord ∅ schedule_midway
      = Some (inr st)
    ∧ files st !! "chord_output/C_major.mid"
      ≠ (∅ : disk) !! "chord_output/C_major.mid"
    ∧ ∃ f t filename,
        executor st !! f = Some t
        ∧ filename_of (H := reliable) (t_progression t) = inr filename
        ∧ "chord_output/C_major.mid" = os_path_join "chord_output" filename.
Proof.
  pose proof file_midway as Hfile.
  destruct (generate_all (H := reliable) __init__ one_chord ∅ schedule_midway)
    as [[e|st]|] eqn:Hgen; [discriminate Hfile| |discriminate Hfile].
  exists st. split; [reflexivity|].
  assert (Hne : files st !! "chord_output/C_major.mid"
                ≠ (∅ : disk) !! "chord_output/C_major.mid").
  { intros Heq. pose proof (eq_trans (eq_sym Heq) Hfile) as Habs.
    rewrite lookup_empty in Habs. discriminate Habs. }
  split; [exact Hne|].
  destruct (generate_all_disk (H := reliable) _ _ _ _ _ Hgen _ Hne)
    as (f & t & filename & Hf & _ & Hfn & Hfp).
  exists f, t, filename. split; [exact Hf|]. split; [exact Hfn|exact Hfp].
Defined.

Lemma filename_of_catalog_inj_witness :
  filename_of (H := reliable) [[48; 52; 55]] = inr "C_major.mid"
  ∧ filename_of (H := reliable) [[49; 52; 56]] = inr "C#_minor.mid"
  ∧ ("C_major.mid" = "C#_minor.mid" → [[48; 52; 55]] = [[49; 52; 56]]).
Proof.
  split; [reflexivity|]. split; [reflexivity|].
  refine (proj1 (filename_of_catalog_inj (H := reliable) 48 59
    music21_roots_named music21_roots_distinct
    [[48; 52; 55]] [[49; 52; 56]] "out" _ _ _ _ eq_refl eq_refl));
    apply (bool_decide_unpack _); vm_compute; exact I.
Defined.

Lemma generate_all_writes_every_file_witness :
  ∃ st,
    generate_all (H := reliable) __init__ one_chord ∅ schedule_one_chord
      = Some (inr st)
    ∧ at_ st = Returned RNone
    ∧ size (files st) = total st.
Proof.
  pose proof returned_one_chord as Hret.
  destruct (generate_all (H := reliable) __init__ one_chord ∅ schedule_one_chord)
    as [[e|st]|] eqn:Hgen; [discriminate Hret| |discriminate Hret].
  exists st. split; [reflexivity|]. simpl in Hret.
  destruct (at_ st) as [| | |v|] eqn:Hat; try discriminate Hret.
  injection Hret as ->. split; [reflexivity|].
  refine (proj2 (proj2 (generate_all_writes_every_file (H := reliable) 48 59
    music21_roots_named music21_roots_distinct
    __init__ one_chord ∅ schedule_one_chord st RNone eq_refl _ Hgen Hat))
    eq_refl).
  intros q fp dk. reflexivity.
Defined.

Lemma generate_all_batches_witness :
  ∃ st,
    generate_all (H := reliable) __init__ one_chord ∅ schedule_midway
      = Some (inr st)
    ∧ (batch_size * ((i st - 1) / batch_size) ≤ pbar st)%nat.
Proof.
  destruct (generate_all (H := reliable) __init__ one_chord ∅ schedule_midway)
    as [[e|st]|] eqn:Hgen; [by vm_compute in Hgen| |by vm_compute in Hgen].
  exists st. split; [done|].
  exact (proj2 (proj2 (proj2
    (generate_all_batches (H := reliable) _ _ _ _ _ Hgen)))).
Defined.

Lemma worker_commutes_witness :
  ∃ s1 s2 s3,
    step (H := reliable) one_submitted (Worker 0%nat) = Some s1
    ∧ step (H := reliable) one_submitted Coordinator = Some s2
    ∧ step (H := reliable) s1 Coordinator = Some s3
    ∧ step (H := reliable) s2 (Worker 0%nat) = Some s3.
Proof.
  destruct (step (H := reliable) one_submitted (Worker 0%nat)) as [s1|] eqn:H1;
    [|by vm_compute in H1].
  destruct (step (H := reliable) one_submitted Coordinator) as [s2|] eqn:H2;
    [|by vm_compute in H2].
  assert (Hev : ∀ g, Coordinator ≠ Worker g) by (intros g Hg; discriminate Hg).
  destruct (worker_commutes (H := reliable) _ _ _ _ _ Hev H1 H2)
    as (s3 & H3 & H4).
  by exists s1, s2, s3.
Defined.

(** ** The order of enumeration *)

Lemma lookup_product_S {A} (pool : list A) (n k : nat) (p : list A) :
  product pool (S n) !! k = Some p →
  ∃ c rest, p = c :: rest
    ∧ pool !! (k / length pool ^ n)%nat = Some c
    ∧ product pool n !! (k mod length pool ^ n)%nat = Some rest.
Proof.
  rewrite <- (length_product pool n). simpl.
  generalize (product pool n). intros block. revert k.
  induction pool as [|x pool IH]; intros k; [done|].
  change ((x :: pool) ≫= λ y, (y ::.) <$> block)
    with (((x ::.) <$> block) ++ (pool ≫= λ y, (y ::.) <$> block)).
  intros Hk. apply lookup_app_Some in Hk as [Hk|[Hge Hk]].
  - apply list_lookup_fmap_Some in Hk as (rest & -> & Hrest).
    pose proof (lookup_lt_Some _ _ _ Hrest) as Hlt.
    exists x, rest. split; [done|].
    by rewrite Nat.div_small, Nat.mod_small.
  - rewrite length_fmap in Hge, Hk.
    destruct (IH _ Hk) as (c & rest & -> & Hc & Hrest).
    pose proof (lookup_lt_Some _ _ _ Hrest) as Hlt.
    assert (Hpos : length block ≠ 0%nat) by lia.
    exists c, rest. split; [done|].
    replace k with (k - length block + 1 * length block)%nat at 1 2 by lia.
    rewrite Nat.div_add by done. rewrite Nat.Div0.mod_add.
    by rewrite Nat.add_1_r.
Qed.

(** X15: units are submitted in odometer order, the first chord turning
    slowest: with [num_chords = n + 1] and a catalog of [K] templates, the
    unit submitted in position [f] has for its first chord the template of
    index [f // K**n], and for its other chords the progression of index
    [f % K**n] among those of length [n]. *)
Theorem generate_all_enumeration_order `{Collaborators}
    self kw d schedule st (n : nat) :
  num_chords (bind_parameters kw) = Z.of_nat (S n) →
  generate_all self kw d schedule = Some (inr st) →
  ∀ f t, executor st !! f = Some t →
    ∃ c rest, t_progression t = c :: rest
      ∧ templates self !! (f / length (templates self) ^ n)%nat = Some c
      ∧ product (templates self) n !! (f mod length (templates self) ^ n)%nat
        = Some rest.
Proof.
  intros Hn Hgen f t Hf. apply generate_all_inv in Hgen as [_ Hinv].
  rewrite Hn, Nat2Z.id in Hinv.
  pose proof (inv_submitted _ _ _ _ Hinv) as Hsub.
  apply lookup_product_S.
  assert (Hf' : (t_progression <$> executor st) !! f = Some (t_progression t))
    by by rewrite list_lookup_fmap, Hf.
  rewrite Hsub in Hf'. by apply lookup_take_Some in Hf' as [Hf' _].
Qed.

Lemma generate_all_enumeration_order_witness :
  num_chords (bind_parameters one_chord) = Z.of_nat 1
  ∧ ∃ st,
      generate_all (H := reliable) __init__ one_chord ∅ schedule_midway
        = Some (inr st)
      ∧ ∀ f t, executor st !! f = Some t →
          ∃ c rest, t_progression t = c :: rest
            ∧ templates __init__ !! (f / length (templates __init__) ^ 0)%nat
              = Some c
            ∧ product (templates __init__) 0
                !! (f mod length (templates __init__) ^ 0)%nat = Some rest.
Proof.
  split; [reflexivity|].
  destruct (generate_all (H := reliable) __init__ one_chord ∅ schedule_midway)
    as [[e|st]|] eqn:Hgen; [by vm_compute in Hgen| |by vm_compute in Hgen].
  exists st. split; [reflexivity|].
  exact (generate_all_enumeration_order (H := reliable)
           __init__ one_chord ∅ schedule_midway st 0 eq_refl Hgen).
Defined.

Example product_order :
  product [1; 2; 3] 2 !! 5%nat = Some [2; 3]
  ∧ (5 / 3 ^ 1 = 1 ∧ 5 mod 3 ^ 1 = 2)%nat.
Proof. done. Qed.
